(** * The request-authorization middleware of cob-bucket-site

    A shallow embedding of [src/authorize.ts]: [validpath], the direct
    responses [unauthorized] and [forbidden], and the middleware produced by
    [authorize(minAccess, allowUnauthorized)].

    Strings are byte strings (the UTF-8 encoding of the JavaScript string):
    every string operation the source performs ([startsWith], [substring],
    [indexOf(":")], [===]) cuts at ASCII characters only, where bytes and
    UTF-16 code units agree. *)

From Stdlib Require Import String Ascii List Bool ZArith Lia.
Import ListNotations.

Local Open Scope string_scope.
Local Open Scope Z_scope.

Set Implicit Arguments.
#[local] Set Warnings "-register-all".

(** ** JavaScript values the middleware touches *)

Module JS.

(** [s.startsWith(p)] *)
Definition startsWith (s p : string) : bool := String.prefix p s.

(** [s.substring(n)]: the characters from index [n] on, empty when [n]
    is past the end. *)
Fixpoint substring (s : string) (n : nat) : string :=
  match n, s with
  | O, _ => s
  | S n', String _ s' => substring s' n'
  | S _, EmptyString => EmptyString
  end.

(** [s.indexOf(c)] for a one-character needle; [None] is JavaScript's -1. *)
Fixpoint indexOf (s : string) (c : ascii) : option nat :=
  match s with
  | EmptyString => None
  | String a s' =>
      if Ascii.eqb a c then Some O
      else match indexOf s' c with
           | Some p => Some (S p)
           | None => None
           end
  end.

(** Truthiness of a string: only the empty string is falsy. *)
Definition truthy_string (s : string) : bool := negb (s =? EmptyString)%string.

(** The values [JSON.parse] can return.  Numbers are kept as integers:
    the middleware only ever observes whether a number is zero. *)
Inductive JSON : Type :=
| JNull
| JBool (b : bool)
| JNum (n : Z)
| JStr (s : string)
| JArr (items : list JSON)
| JObj (fields : list (string * JSON)).

(** [!!v] *)
Definition truthy (v : JSON) : bool :=
  match v with
  | JNull => false
  | JBool b => b
  | JNum n => negb (n =? 0)
  | JStr s => truthy_string s
  | JArr _ => true
  | JObj _ => true
  end.

(** Own property lookup in a parsed object; when a key is repeated in the
    JSON text the last occurrence wins, as in [JSON.parse]. *)
Fixpoint lookup (fields : list (string * JSON)) (k : string) : option JSON :=
  match fields with
  | [] => None
  | (k', v) :: rest =>
      match lookup rest k with
      | Some v' => Some v'
      | None => if (k' =? k)%string then Some v else None
      end
  end.

(** [v.k] for [k] one of ["access"], ["include"], ["exclude"] and [v] a
    non-nullish parsed value: [None] is [undefined].  Numbers, booleans,
    strings and arrays have no property of these names. *)
Definition prop (v : JSON) (k : string) : option JSON :=
  match v with
  | JObj fields => lookup fields k
  | _ => None
  end.

End JS.
Import JS.

(** ** The libraries and built-ins the module calls

    [JSON.parse], [Buffer.from(_, "base64").toString("utf-8")] and the
    [minimatch] package are not code of this repository.  The middleware is
    modelled over any implementation of them; a concrete one, [node], is
    given further down and used to run the model on concrete requests. *)

Class Runtime : Type := {
  (** [JSON.parse(text)]; [None] when it throws a [SyntaxError]. *)
  JSON_parse : string -> option JSON;
  (** [Buffer.from(text, "base64").toString("utf-8")] *)
  base64_decode : string -> string;
  (** [new Minimatch(pattern).match(path, partial)] *)
  Minimatch_match : string -> string -> bool -> bool;
  (** [new Minimatch(pattern).hasMagic()] *)
  Minimatch_hasMagic : string -> bool
}.

(** A compiled pattern, [new Minimatch(pattern)].  Construction is taken
    to succeed: the package throws only on a pattern longer than 64 KiB. *)
Record Minimatch : Type := new_Minimatch { pattern : string }.

Definition mm_match {rt : Runtime} (m : Minimatch) (path : string) (partial : bool) : bool :=
  Minimatch_match (pattern m) path partial.

Definition hasMagic {rt : Runtime} (m : Minimatch) : bool :=
  Minimatch_hasMagic (pattern m).

(** ** [validpath] *)

(** The argument type [string | null | undefined]. *)
Inductive PathArg : Type :=
| PNull
| PUndefined
| PString (s : string).

Definition validpath {rt : Runtime} (path : PathArg) : bool :=
  match path with
  | PNull | PUndefined => false
  | PString p =>
      truthy_string p &&
      negb (p =? "api")%string &&
      negb (p =? "README")%string &&
      negb (startsWith p "api/") &&
      negb (hasMagic (new_Minimatch p))
  end.

(** ** Data model *)

(** The two environment-sourced constants the decision reads:
    [SERVICE_API_KEY] and [RESOURCE_IAM_ID]. *)
Record Config : Type := {
  serviceApiKey : string;
  resourceIamId : string
}.

(** Modelled from the spec: the type [Apikey] of [./model/auth.js], the
    record the identity provider returns for a key (spec section 3,
    KeyRecord; section 6 names the fields). *)
Record Apikey : Type := {
  iam_id : string;
  locked : bool;
  disabled : bool;
  description : option string
}.

Inductive Access : Type := none | read | write.

Inductive MinAccess : Type := min_read | min_write | min_owner.

Inductive AuthType : Type := type_accessKey | type_authHeader.

Definition is_none (a : Access) : bool :=
  match a with none => true | _ => false end.

Definition is_read (a : Access) : bool :=
  match a with read => true | _ => false end.

Definition is_write (a : Access) : bool :=
  match a with write => true | _ => false end.

Definition is_min_read (m : MinAccess) : bool :=
  match m with min_read => true | _ => false end.

Definition is_owner (m : MinAccess) : bool :=
  match m with min_owner => true | _ => false end.

(** [request.authInfo].  A field that was never assigned is [None];
    [apiKey] distinguishes unassigned from [null] (the Invalid sentinel,
    [Some None]).  [match_] is the field [match]. *)
Record AuthInfo : Type := {
  access : Access;
  type : option AuthType;
  accessKey : option string;
  apiKey : option (option Apikey);
  settings : option JSON;
  match_ : option (string -> bool)
}.

(** [request.query.accessKey]: a string, absent, or one of the structured
    forms (array, nested object) the query parser produces. *)
Inductive QueryValue : Type :=
| QUndefined
| QString (s : string)
| QStructured.

Record Request : Type := {
  query_accessKey : QueryValue;
  header_Authorization : option string;
  path : string;
  authInfo : option AuthInfo
}.

Record Response : Type := {
  statusCode : Z;
  headers : list (string * string);
  sent : option string
}.

Definition status (code : Z) (r : Response) : Response :=
  {| statusCode := code; headers := headers r; sent := sent r |}.

Definition set (name value : string) (r : Response) : Response :=
  {| statusCode := statusCode r; headers := (name, value) :: headers r; sent := sent r |}.

Definition send (body : string) (r : Response) : Response :=
  {| statusCode := statusCode r; headers := headers r; sent := Some body |}.

Definition unauthorized (request : Request) (response : Response) : Response :=
  send "Unauthorized" (set "WWW-Authenticate" "Basic" (status 401 response)).

Definition forbidden (request : Request) (response : Response) : Response :=
  send "Forbidden" (status 403 response).

(** ** The validation cache *)

(** [max]: [Number.isInteger] is applied to an environment value, which is
    a string or undefined and never a number, so the default is always
    taken.  The same holds for the time to live, in milliseconds. *)
Definition cache_max : nat := 1000.
Definition cache_ttl : Z := 10 * 60 * 1000.

(** Modelled from the spec: the memory store of [cache-manager] (spec
    sections 3 and 4.2): entries [{ key, value, expiresAt }], most recently
    used first, dropped beyond [cache_max] entries and after [cache_ttl].
    The value [None] is the cached [null], the Invalid sentinel. *)
Record CacheEntry : Type := {
  key : string;
  value : option Apikey;
  expiresAt : Z
}.

Definition Cache : Type := list CacheEntry.

Fixpoint cache_find (k : string) (c : Cache) : option CacheEntry :=
  match c with
  | [] => None
  | e :: c' => if (key e =? k)%string then Some e else cache_find k c'
  end.

Definition cache_remove (k : string) (c : Cache) : Cache :=
  filter (fun e => negb (key e =? k)%string) c.

(** Modelled from the spec: [memoryCache.get(k)] at time [now] (section
    4.2, [get(credential) -> KeyRecord|Invalid|Missing]); the outer [None]
    is Missing, JavaScript's [undefined].  An entry found past its expiry
    is dropped; one found alive becomes the most recently used. *)
Definition memoryCache_get (now : Z) (k : string) (c : Cache)
  : option (option Apikey) * Cache :=
  match cache_find k c with
  | None => (None, c)
  | Some e =>
      if expiresAt e <=? now then (None, cache_remove k c)
      else (Some (value e), e :: cache_remove k c)
  end.

(** Modelled from the spec: [memoryCache.set(k, v)] at time [now] (section
    4.2, [put]): the entry replaces any other for the key, expires after
    [cache_ttl], and the least recently used entries beyond [cache_max]
    are dropped. *)
Definition memoryCache_set (now : Z) (k : string) (v : option Apikey) (c : Cache) : Cache :=
  firstn cache_max
    ({| key := k; value := v; expiresAt := now + cache_ttl |} :: cache_remove k c).

(** ** The identity provider *)

(** What [await fetch(...)] followed by [detailsResponse.json()] can do.
    [json] is [None] when [json()] rejects, [Some None] when the body is a
    falsy value such as [null], [Some (Some k)] for a record. *)
Inductive FetchResult : Type :=
| NetworkError
| HttpResponse (ok : bool) (json : option (option Apikey)).

(** What one run of the middleware reads from outside: the clock of the
    cache, and the provider's answer for each [IAM-Apikey] header. *)
Record World : Type := {
  now : Z;
  fetch_details : string -> FetchResult
}.

(** ** Control flow of the [Check:] block

    The labelled block mutates [authInfo] (the object [request.authInfo]
    points to) and the cache, and is left in one of three ways: it runs to
    its end, it executes [break Check], or an awaited promise rejects. *)

Record St : Type := {
  st_authInfo : AuthInfo;
  st_cache : Cache
}.

Inductive Res (A : Type) : Type :=
| Normal (a : A) (s : St)
| Break (s : St)
| Throw (s : St).

Arguments Break {A} s.
Arguments Throw {A} s.

Definition M (A : Type) : Type := St -> Res A.

Definition ret {A : Type} (a : A) : M A := fun s => Normal a s.

Definition bind {A B : Type} (m : M A) (k : A -> M B) : M B :=
  fun s =>
    match m s with
    | Normal a s' => k a s'
    | Break s' => Break s'
    | Throw s' => Throw s'
    end.

Definition break_Check {A : Type} : M A := fun s => Break s.

Definition throw {A : Type} : M A := fun s => Throw s.

Declare Scope check_scope.
Delimit Scope check_scope with check.
Notation "x <- m ;; k" := (bind m (fun x => k))
  (at level 61, m at next level, right associativity) : check_scope.
Notation "m ;; k" := (bind m (fun _ => k))
  (at level 61, right associativity) : check_scope.

(** Assignments to the fields of [authInfo]. *)
Definition assign (f : AuthInfo -> AuthInfo) : M unit :=
  fun s => Normal tt {| st_authInfo := f (st_authInfo s); st_cache := st_cache s |}.

Definition with_access (a : Access) (i : AuthInfo) : AuthInfo :=
  {| access := a; type := type i; accessKey := accessKey i;
     apiKey := apiKey i; settings := settings i; match_ := match_ i |}.

Definition with_type (t : AuthType) (i : AuthInfo) : AuthInfo :=
  {| access := access i; type := Some t; accessKey := accessKey i;
     apiKey := apiKey i; settings := settings i; match_ := match_ i |}.

Definition with_accessKey (k : string) (i : AuthInfo) : AuthInfo :=
  {| access := access i; type := type i; accessKey := Some k;
     apiKey := apiKey i; settings := settings i; match_ := match_ i |}.

Definition with_apiKey (k : option Apikey) (i : AuthInfo) : AuthInfo :=
  {| access := access i; type := type i; accessKey := accessKey i;
     apiKey := Some k; settings := settings i; match_ := match_ i |}.

Definition with_settings (v : JSON) (i : AuthInfo) : AuthInfo :=
  {| access := access i; type := type i; accessKey := accessKey i;
     apiKey := apiKey i; settings := Some v; match_ := match_ i |}.

Definition with_match (f : string -> bool) (i : AuthInfo) : AuthInfo :=
  {| access := access i; type := type i; accessKey := accessKey i;
     apiKey := apiKey i; settings := settings i; match_ := Some f |}.

(** [await memoryCache.get(accessKey)] *)
Definition cache_get (w : World) (k : string) : M (option (option Apikey)) :=
  fun s =>
    let (r, c) := memoryCache_get (now w) k (st_cache s) in
    Normal r {| st_authInfo := st_authInfo s; st_cache := c |}.

(** [memoryCache.set(accessKey, apiKey)] *)
Definition cache_set (w : World) (k : string) (v : option Apikey) : M unit :=
  fun s =>
    Normal tt {| st_authInfo := st_authInfo s;
                 st_cache := memoryCache_set (now w) k v (st_cache s) |}.

(** ** [authorize] *)

Section Authorize.

Context {rt : Runtime}.
Variable cfg : Config.

Local Open Scope check_scope.

(** Lines 72-78: where the credential is read from, as recorded in
    [authInfo.type] before anything else happens. *)
Definition source (request : Request) : AuthType :=
  match query_accessKey request with
  | QString _ => type_accessKey
  | _ => type_authHeader
  end.

(** Lines 70-108: the value of [accessKey] on reaching line 110, or [None]
    when the block is left at line 84 or 106. *)
Definition read_accessKey (request : Request) : option string :=
  match query_accessKey request with
  | QString accessKey => Some accessKey
  | _ =>
      match header_Authorization request with
      | None => None
      | Some header =>
          if negb (truthy_string header) then None
          else if startsWith header "Bearer " then
            Some (substring header (String.length "Bearer "))
          else if startsWith header "Basic " then
            let accessKey := base64_decode (substring header (String.length "Basic ")) in
            match indexOf accessKey ":"%char with
            | Some p => Some (substring accessKey (p + 1))
            | None => Some accessKey
            end
          else None
      end
  end.

(** Lines 70-113. *)
Definition extract (request : Request) : M string :=
  assign (with_type (source request)) ;;
  match read_accessKey request with
  | None => break_Check
  | Some accessKey =>
      if negb (truthy_string accessKey) then break_Check
      else ret accessKey
  end.

(** Lines 117-142: the cached record, or the provider's answer, cached. *)
Definition verify (w : World) (accessKey : string) : M (option Apikey) :=
  cached <- cache_get w accessKey ;;
  match cached with
  | Some apiKey => ret apiKey
  | None =>
      match fetch_details w accessKey with
      | NetworkError => throw
      | HttpResponse ok json =>
          apiKey <- (if ok then
                       match json with
                       | Some body => ret body
                       | None => throw
                       end
                     else ret None) ;;
          cache_set w accessKey apiKey ;;
          ret apiKey
      end
  end.

(** Lines 154-166: the value assigned to [authInfo.settings], when the
    assignment is reached and [JSON.parse] does not throw. *)
Definition parse_settings (k : Apikey) : option JSON :=
  match description k with
  | None => None
  | Some d => if truthy_string d then JSON_parse d else None
  end.

(** The local [settings] after line 166: it stays [null] otherwise. *)
Definition settings_of (k : Apikey) : JSON :=
  match parse_settings k with
  | Some v => v
  | None => JNull
  end.

(** Line 168: [owner ? "write" : settings?.access ?? "read"]. *)
Definition requested (owner : bool) (settings : JSON) : JSON :=
  if owner then JStr "write"
  else
    match settings with
    | JNull => JStr "read"
    | _ =>
        match prop settings "access" with
        | None | Some JNull => JStr "read"
        | Some v => v
        end
    end.

(** Line 170: the value passes when it is ["read"] or ["write"]. *)
Definition as_Access (v : JSON) : option Access :=
  match v with
  | JStr s =>
      if (s =? "read")%string then Some read
      else if (s =? "write")%string then Some write
      else None
  | _ => None
  end.

(** [items.filter(item => typeof item === "string").map(item => new Minimatch(item))] *)
Fixpoint compile (items : list JSON) : list Minimatch :=
  match items with
  | [] => []
  | JStr p :: rest => new_Minimatch p :: compile rest
  | _ :: rest => compile rest
  end.

(** Lines 175-189, for [field] one of ["include"], ["exclude"]. *)
Definition matches (settings : JSON) (field : string) : list Minimatch :=
  if negb (truthy settings) then []
  else
    match prop settings field with
    | Some (JStr p) => [new_Minimatch p]
    | Some (JArr items) => compile items
    | _ => []
    end.

(** [!list.length] *)
Definition no_length {A : Type} (l : list A) : bool :=
  match l with [] => true | _ => false end.

(** Lines 191-195, with the grouping JavaScript gives the expression: the
    arrow function passed to [includeMatches.some] extends to the closing
    parenthesis of that call. *)
Definition compiled_match (owner : bool) (includeMatches excludeMatches : list Minimatch)
  : string -> bool :=
  if owner || no_length includeMatches && no_length excludeMatches then
    fun _ => true
  else
    fun path =>
      no_length includeMatches ||
      existsb
        (fun m =>
           mm_match m path true && no_length excludeMatches ||
           negb (existsb (fun m' => mm_match m' path true) excludeMatches))
        includeMatches.

(** Lines 204-211; the result is the assignment to [authInfo.access] to
    make, if any. *)
Definition granted (minAccess : MinAccess) (owner : bool) (a : Access) : option Access :=
  if is_owner minAccess && negb owner then Some none
  else if is_write a || is_read a && is_min_read minAccess then Some a
  else None.

(** Lines 68-211: the body of [if (!authInfo)]. *)
Definition check_block (minAccess : MinAccess) (w : World) (request : Request) : M unit :=
  accessKey <- extract request ;;
  assign (with_accessKey accessKey) ;;
  apiKey <- verify w accessKey ;;
  assign (with_apiKey apiKey) ;;
  let owner := (accessKey =? serviceApiKey cfg)%string in
  match apiKey with
  | None => break_Check
  | Some k =>
      if locked k || disabled k ||
         negb owner && negb (iam_id k =? resourceIamId cfg)%string
      then break_Check
      else
        match parse_settings k with
        | Some v => assign (with_settings v)
        | None => ret tt
        end ;;
        let settings := settings_of k in
        match as_Access (requested owner settings) with
        | None => break_Check
        | Some a =>
            let includeMatches := matches settings "include" in
            let excludeMatches := matches settings "exclude" in
            let match' := compiled_match owner includeMatches excludeMatches in
            assign (with_match match') ;;
            if negb (match' (substring (path request) 1)) then break_Check
            else
              match granted minAccess owner a with
              | Some a' => assign (with_access a')
              | None => ret tt
              end
        end
  end.

(** What the middleware did, and the state it leaves behind:
    [request.authInfo] and the cache. *)
Inductive Outcome : Type :=
| Sent (response : Response)
| Next
| Rejected.

Record Result : Type := {
  outcome : Outcome;
  final_authInfo : AuthInfo;
  final_cache : Cache
}.

(** Lines 214-228. *)
Definition decide (allowUnauthorized : bool) (request : Request) (response : Response)
  (i : AuthInfo) : Outcome :=
  if is_none (access i) && negb allowUnauthorized then
    match accessKey i with
    | Some k =>
        if truthy_string k then Sent (forbidden request response)
        else Sent (unauthorized request response)
    | None => Sent (unauthorized request response)
    end
  else Next.

Definition initial_authInfo : AuthInfo :=
  {| access := none; type := None; accessKey := None;
     apiKey := None; settings := None; match_ := None |}.

Definition authorize (minAccess : MinAccess) (allowUnauthorized : bool)
  (w : World) (cache : Cache) (request : Request) (response : Response) : Result :=
  match authInfo request with
  | Some i =>
      {| outcome := decide allowUnauthorized request response i;
         final_authInfo := i;
         final_cache := cache |}
  | None =>
      match check_block minAccess w request
              {| st_authInfo := initial_authInfo; st_cache := cache |} with
      | Normal _ s | Break s =>
          {| outcome := decide allowUnauthorized request response (st_authInfo s);
             final_authInfo := st_authInfo s;
             final_cache := st_cache s |}
      | Throw s =>
          {| outcome := Rejected;
             final_authInfo := st_authInfo s;
             final_cache := st_cache s |}
      end
  end.

End Authorize.

(** ** A concrete runtime

    Executable stand-ins for the three libraries, each exact on the
    fragment named in its comment, so that the middleware can be run on
    concrete requests.  Every general theorem below holds for any
    [Runtime]; this one only supplies concrete runs. *)

Module Node.

Local Open Scope char_scope.

(** *** [JSON.parse], for texts whose numbers are integer literals and
    whose strings carry no [\u] escape. *)

Definition is_ws (c : ascii) : bool :=
  Ascii.eqb c " " || Ascii.eqb c "009" || Ascii.eqb c "010" || Ascii.eqb c "013".

Fixpoint skip_ws (s : string) : string :=
  match s with
  | String c s' => if is_ws c then skip_ws s' else s
  | EmptyString => s
  end.

Definition unescape (c : ascii) : option ascii :=
  if Ascii.eqb c "034" then Some "034"
  else if Ascii.eqb c "\" then Some "\"
  else if Ascii.eqb c "/" then Some "/"
  else if Ascii.eqb c "b" then Some "008"
  else if Ascii.eqb c "f" then Some "012"
  else if Ascii.eqb c "n" then Some "010"
  else if Ascii.eqb c "r" then Some "013"
  else if Ascii.eqb c "t" then Some "009"
  else None.

(** The characters after an opening quote, up to the closing one. *)
Fixpoint parse_chars (s : string) : option (string * string) :=
  match s with
  | EmptyString => None
  | String c s' =>
      if Ascii.eqb c "034" then Some (EmptyString, s')
      else if Ascii.eqb c "\" then
        match s' with
        | String e s'' =>
            match unescape e, parse_chars s'' with
            | Some c', Some (r, rest) => Some (String c' r, rest)
            | _, _ => None
            end
        | EmptyString => None
        end
      else if (N_of_ascii c <? 32)%N then None
      else
        match parse_chars s' with
        | Some (r, rest) => Some (String c r, rest)
        | None => None
        end
  end.

Definition digit (c : ascii) : option Z :=
  let n := N_of_ascii c in
  if ((48 <=? n) && (n <=? 57))%N then Some (Z.of_N n - 48)%Z else None.

Fixpoint parse_digits (s : string) (acc : Z) : Z * string :=
  match s with
  | String c s' =>
      match digit c with
      | Some d => parse_digits s' (10 * acc + d)%Z
      | None => (acc, s)
      end
  | EmptyString => (acc, s)
  end.

(** The literal stops where a fraction or an exponent would start; those
    are outside the fragment. *)
Definition ends_number (s : string) : bool :=
  match s with
  | String c _ => negb (Ascii.eqb c "." || Ascii.eqb c "e" || Ascii.eqb c "E")
  | EmptyString => true
  end.

Definition parse_nat (s : string) : option (Z * string) :=
  match s with
  | String c s' =>
      match digit c with
      | Some 0%Z => if ends_number s' then
                      match s' with
                      | String c' _ => match digit c' with
                                       | Some _ => None
                                       | None => Some (0%Z, s')
                                       end
                      | EmptyString => Some (0%Z, s')
                      end
                    else None
      | Some d => let (n, rest) := parse_digits s' d in
                  if ends_number rest then Some (n, rest) else None
      | None => None
      end
  | EmptyString => None
  end.

Definition parse_number (s : string) : option (Z * string) :=
  match s with
  | String "-" s' =>
      match parse_nat s' with
      | Some (n, rest) => Some ((- n)%Z, rest)
      | None => None
      end
  | _ => parse_nat s
  end.

(** [s] without the prefix [p], when it has it. *)
Definition strip (p s : string) : option string :=
  if startsWith s p then Some (substring s (String.length p)) else None.

Fixpoint parse_value (fuel : nat) (s : string) {struct fuel} : option (JSON * string) :=
  match fuel with
  | O => None
  | S fuel' =>
      match skip_ws s with
      | String "[" s1 =>
          match skip_ws s1 with
          | String "]" s2 => Some (JArr [], s2)
          | _ => parse_elements fuel' s1 []
          end
      | String "{" s1 =>
          match skip_ws s1 with
          | String "}" s2 => Some (JObj [], s2)
          | _ => parse_members fuel' s1 []
          end
      | String "034" s1 =>
          match parse_chars s1 with
          | Some (r, rest) => Some (JStr r, rest)
          | None => None
          end
      | s0 =>
          match strip "null" s0, strip "true" s0, strip "false" s0 with
          | Some rest, _, _ => Some (JNull, rest)
          | _, Some rest, _ => Some (JBool true, rest)
          | _, _, Some rest => Some (JBool false, rest)
          | _, _, _ =>
              match parse_number s0 with
              | Some (n, rest) => Some (JNum n, rest)
              | None => None
              end
          end
      end
  end

with parse_elements (fuel : nat) (s : string) (acc : list JSON) {struct fuel}
  : option (JSON * string) :=
  match fuel with
  | O => None
  | S fuel' =>
      match parse_value fuel' s with
      | Some (v, rest) =>
          match skip_ws rest with
          | String "," rest' => parse_elements fuel' rest' (v :: acc)
          | String "]" rest' => Some (JArr (rev (v :: acc)), rest')
          | _ => None
          end
      | None => None
      end
  end

with parse_members (fuel : nat) (s : string) (acc : list (string * JSON)) {struct fuel}
  : option (JSON * string) :=
  match fuel with
  | O => None
  | S fuel' =>
      match skip_ws s with
      | String "034" s1 =>
          match parse_chars s1 with
          | Some (k, rest) =>
              match skip_ws rest with
              | String ":" rest1 =>
                  match parse_value fuel' rest1 with
                  | Some (v, rest2) =>
                      match skip_ws rest2 with
                      | String "," rest' => parse_members fuel' rest' ((k, v) :: acc)
                      | String "}" rest' => Some (JObj (rev ((k, v) :: acc)), rest')
                      | _ => None
                      end
                  | None => None
                  end
              | _ => None
              end
          | None => None
          end
      | _ => None
      end
  end.

Definition parse (text : string) : option JSON :=
  match parse_value (S (String.length text)) text with
  | Some (v, rest) =>
      match skip_ws rest with
      | EmptyString => Some v
      | _ => None
      end
  | None => None
  end.

(** *** [Buffer.from(text, "base64").toString("utf-8")], for texts that
    decode to well-formed UTF-8.  Characters outside the two base64
    alphabets are skipped and the first [=] ends the input. *)

Definition sextet (c : ascii) : option N :=
  let n := N_of_ascii c in
  if ((65 <=? n) && (n <=? 90))%N then Some (n - 65)%N
  else if ((97 <=? n) && (n <=? 122))%N then Some (n - 71)%N
  else if ((48 <=? n) && (n <=? 57))%N then Some (n + 4)%N
  else if Ascii.eqb c "+" || Ascii.eqb c "-" then Some 62%N
  else if Ascii.eqb c "/" || Ascii.eqb c "_" then Some 63%N
  else None.

Fixpoint sextets (s : string) : list N :=
  match s with
  | EmptyString => []
  | String c s' =>
      if Ascii.eqb c "=" then []
      else match sextet c with
           | Some n => n :: sextets s'
           | None => sextets s'
           end
  end.

Fixpoint bytes_of_sextets (l : list N) : string :=
  match l with
  | a :: b :: c :: d :: rest =>
      String (ascii_of_N (a * 4 + b / 16))
        (String (ascii_of_N ((b mod 16) * 16 + c / 4))
           (String (ascii_of_N ((c mod 4) * 64 + d)) (bytes_of_sextets rest)))
  | [a; b; c] =>
      String (ascii_of_N (a * 4 + b / 16))
        (String (ascii_of_N ((b mod 16) * 16 + c / 4)) EmptyString)
  | [a; b] => String (ascii_of_N (a * 4 + b / 16)) EmptyString
  | _ => EmptyString
  end.

Definition base64 (text : string) : string := bytes_of_sextets (sextets text).

(** *** [minimatch] with its default options, for ASCII patterns made of
    literal characters, [?], [*] and [/] whose segments are not empty, do
    not begin with a dot and are not [**]. *)

Fixpoint split_on (c : ascii) (s : string) : list string :=
  match s with
  | EmptyString => [EmptyString]
  | String a s' =>
      if Ascii.eqb a c then EmptyString :: split_on c s'
      else match split_on c s' with
           | h :: t => String a h :: t
           | [] => [String a EmptyString]
           end
  end.

(** An empty piece that is neither first nor last comes from a run of
    slashes, which the splitting expression [/\/+/] takes as one. *)
Fixpoint drop_inner_empty (l : list string) : list string :=
  match l with
  | [] => []
  | [x] => [x]
  | x :: rest =>
      if (x =? EmptyString)%string then drop_inner_empty rest
      else x :: drop_inner_empty rest
  end.

Definition slashSplit (s : string) : list string :=
  match split_on "/" s with
  | [] => []
  | h :: t => h :: drop_inner_empty t
  end.

Definition is_wild (c : ascii) : bool := Ascii.eqb c "*" || Ascii.eqb c "?".

Fixpoint has_wild (p : string) : bool :=
  match p with
  | EmptyString => false
  | String c p' => is_wild c || has_wild p'
  end.

Fixpoint all_stars (p : string) : bool :=
  match p with
  | EmptyString => true
  | String c p' => Ascii.eqb c "*" && all_stars p'
  end.

(** The anchored regular expression of a segment: [*] is any run of
    characters, [?] is any one character. *)
Fixpoint wild (p : string) : string -> bool :=
  match p with
  | EmptyString => fun f => (f =? EmptyString)%string
  | String c p' =>
      if Ascii.eqb c "*" then
        fix star (f : string) : bool :=
          wild p' f ||
          match f with
          | String _ f' => star f'
          | EmptyString => false
          end
      else if Ascii.eqb c "?" then
        fun f => match f with
                 | String _ f' => wild p' f'
                 | EmptyString => false
                 end
      else
        fun f => match f with
                 | String a f' => Ascii.eqb a c && wild p' f'
                 | EmptyString => false
                 end
  end.

(** One pattern segment against one path segment.  A segment without
    wildcards is compared as a string.  A wildcard in first position does
    not match a leading dot, and a segment of stars only does not match
    the empty name. *)
Definition match_part (p f : string) : bool :=
  if has_wild p then
    match p with
    | String c _ =>
        negb (is_wild c && startsWith f ".") &&
        negb (all_stars p && (f =? EmptyString)%string) &&
        wild p f
    | EmptyString => false
    end
  else (f =? p)%string.

(** [matchOne(file, pattern, partial)] *)
Fixpoint matchOne (file pattern : list string) (partial : bool) : bool :=
  match file, pattern with
  | [], [] => true
  | [], _ :: _ => partial
  | f :: file', [] =>
      match file' with
      | [] => (f =? EmptyString)%string
      | _ :: _ => false
      end
  | f :: file', p :: pattern' => match_part p f && matchOne file' pattern' partial
  end.

Definition glob_match (pattern path : string) (partial : bool) : bool :=
  if (pattern =? EmptyString)%string then (path =? EmptyString)%string
  else if (path =? "/")%string && partial then true
  else matchOne (slashSplit path) (slashSplit pattern) partial.

Definition glob_hasMagic (pattern : string) : bool := has_wild pattern.

End Node.

#[export] Instance node : Runtime := {
  JSON_parse := Node.parse;
  base64_decode := Node.base64;
  Minimatch_match := Node.glob_match;
  Minimatch_hasMagic := Node.glob_hasMagic
}.

(** ** Reading a run *)

(** What verification yields for a credential, given the cache and the
    world: [Some None] is Invalid, [Some (Some r)] a record, [None] a
    rejected promise. *)
Definition verified {rt : Runtime} (w : World) (cache : Cache) (k : string)
  : option (option Apikey) :=
  match verify w k {| st_authInfo := initial_authInfo; st_cache := cache |} with
  | Normal r _ => Some r
  | Break _ | Throw _ => None
  end.

(** The cache verification leaves behind. *)
Definition cache_after {rt : Runtime} (w : World) (cache : Cache) (k : string) : Cache :=
  match verify w k {| st_authInfo := initial_authInfo; st_cache := cache |} with
  | Normal _ s | Break s | Throw s => st_cache s
  end.

(** What a later [memoryCache.get] at time [t] answers. *)
Definition cached_at (t : Z) (k : string) (c : Cache) : option (option Apikey) :=
  fst (memoryCache_get t k c).

(** The path the matcher is asked about: [request.path.substring(1)]. *)
Definition asked_path (request : Request) : string := substring (path request) 1.

(** Some matcher of the list matches the path, in partial mode. *)
Definition some_match {rt : Runtime} (l : list Minimatch) (path : string) : bool :=
  existsb (fun m => mm_match m path true) l.

(** The conjunction the include and exclude lists suggest, written from
    the words of the specification: allowed when (there is no include
    matcher or one of them matches) and (there is no exclude matcher or
    none of them matches). *)
Definition conjunctive_match {rt : Runtime} (includeMatches excludeMatches : list Minimatch)
  (path : string) : bool :=
  (no_length includeMatches || some_match includeMatches path) &&
  (no_length excludeMatches || negb (some_match excludeMatches path)).

(** ** Concrete requests *)

Module Example.

(** JSON texts are written with apostrophes for the double quotes. *)
Fixpoint dq (s : string) : string :=
  match s with
  | EmptyString => EmptyString
  | String c s' => String (if Ascii.eqb c "'" then "034"%char else c) (dq s')
  end.

Definition cfg : Config :=
  {| serviceApiKey := "service-key"; resourceIamId := "iam-1" |}.

Definition record (d : option string) : Apikey :=
  {| iam_id := "iam-1"; locked := false; disabled := false; description := d |}.

Definition scoped_text : string :=
  dq "{'include': ['a/*'], 'exclude': ['a/secret/*']}".

Definition get (p : string) (bearer : string) : Request :=
  {| query_accessKey := QUndefined;
     header_Authorization := Some ("Bearer " ++ bearer);
     path := p;
     authInfo := None |}.

Definition response0 : Response :=
  {| statusCode := 200; headers := []; sent := None |}.

(** A provider that knows one user key, with the given description, and
    the service key. *)
Definition provider (d : option string) (k : string) : FetchResult :=
  if (k =? "user-key")%string then HttpResponse true (Some (Some (record d)))
  else if (k =? "service-key")%string then
    HttpResponse true
      (Some (Some {| iam_id := "iam-service"; locked := false; disabled := false;
                     description := d |}))
  else HttpResponse false None.

Definition world (d : option string) : World :=
  {| now := 0; fetch_details := provider d |}.


(** A provider for which the service key itself is locked. *)
Definition locked_world : World :=
  {| now := 0;
     fetch_details := fun _ =>
       HttpResponse true
         (Some (Some {| iam_id := "iam-1"; locked := true; disabled := false;
                        description := None |})) |}.

(** A request with neither query parameter nor header. *)
Definition anonymous (p : string) : Request :=
  {| query_accessKey := QUndefined;
     header_Authorization := None;
     path := p;
     authInfo := None |}.

(** A request with Basic credentials, given in base64. *)
Definition basic (p : string) (b64 : string) : Request :=
  {| query_accessKey := QUndefined;
     header_Authorization := Some ("Basic " ++ b64);
     path := p;
     authInfo := None |}.

(** The request as the next middleware of the chain sees it. *)
Definition carry (request : Request) (res : Result) : Request :=
  {| query_accessKey := query_accessKey request;
     header_Authorization := header_Authorization request;
     path := path request;
     authInfo := Some (final_authInfo res) |}.

(** A first guard [authorize("read")] on a user's request. *)
Definition first_pass : Result :=
  authorize (rt := node) cfg min_read false (world None) []
    (get "/a/file" "user-key") response0.

End Example.

(** * The rest of the module and its callers *)

(** ** More of JavaScript's strings *)

Module JSString.

(** [s.endsWith(p)] *)
Definition endsWith (s p : string) : bool :=
  (substring s (String.length s - String.length p) =? p)%string.

(** The last index [i <= limit] with [s[i] = c]. *)
Fixpoint lastIndexOf_upto (s : string) (c : ascii) (limit : nat) : option nat :=
  match s with
  | EmptyString => None
  | String a s' =>
      match limit with
      | O => if Ascii.eqb a c then Some O else None
      | S limit' =>
          match lastIndexOf_upto s' c limit' with
          | Some i => Some (S i)
          | None => if Ascii.eqb a c then Some O else None
          end
      end
  end.

(** [s.lastIndexOf(c, position)] for a one-character needle: a negative
    position counts as 0, and the answer is -1 when there is no match. *)
Definition lastIndexOf (s : string) (c : ascii) (position : Z) : Z :=
  match lastIndexOf_upto s c (Z.to_nat (Z.max 0 position)) with
  | Some i => Z.of_nat i
  | None => -1
  end.

(** [s.substring(start, end)]: both indices are clamped to the string and
    swapped when [start] is the larger. *)
Definition substring2 (s : string) (start end_ : Z) : string :=
  let len := Z.of_nat (String.length s) in
  let a := Z.min (Z.max 0 start) len in
  let b := Z.min (Z.max 0 end_) len in
  String.substring (Z.to_nat (Z.min a b)) (Z.to_nat (Z.max a b - Z.min a b)) s.

End JSString.
Import JSString.

(** ** Start-up configuration (lines 6-10) *)

(** [process.env]: a variable is a string or undefined. *)
Definition Env : Type := string -> option string.

(** Lines 8-10: [error] throws its message, so loading the module either
    throws a message ([inl]) or yields the two constants. *)
Definition load_config (env : Env) : string + Config :=
  match env "SERVICE_API_KEY" with
  | None => inl "No SERVICE_API_KEY is defined."
  | Some key =>
      match env "RESOURCE_IAM_ID" with
      | None => inl "No RESOURCE_IAM_ID is defined."
      | Some id => inr {| serviceApiKey := key; resourceIamId := id |}
      end
  end.

(** ** [notfound] and [servererror] (lines 39-57) *)


(** [response.send(body)] with a body that may be [undefined], in which
    case the response ends without content. *)
Definition send_value (body : option string) (r : Response) : Response :=
  match body with
  | Some text => send text r
  | None => send EmptyString r
  end.




(** ** The same request with another [Authorization] header *)

Definition with_header (h : option string) (request : Request) : Request :=
  {| query_accessKey := query_accessKey request;
     header_Authorization := h;
     path := path request;
     authInfo := authInfo request |}.

(** The same clock with another provider behind it. *)
Definition with_provider (fetch : string -> FetchResult) (w : World) : World :=
  {| now := now w; fetch_details := fetch |}.

(** * The controllers of the HTTP routes

    The handlers [read], [put], [delete_] and [post] and what they do to
    their collaborators: the object store ([listObjects], [deleteObjects],
    [setObjectStream], [getObjectStream]), the directory listing, the tar
    packer and the response.  A run is the list of the calls it makes, in
    order, and whether the handler returns or its promise rejects. *)

Module Controllers.

(** An item of a listing, with the fields the handlers read. *)
Record Item : Type := {
  name : string;
  file : bool;
  size : option Z
}.

(** What iterating over [listObjects(...)] gives: the items it yields, and
    whether the iteration then ends or rejects. *)
Record Listing : Type := {
  yielded : list Item;
  completes : bool
}.

(** An uploaded file: [file.originalname] and [file.path]. *)
Record UploadedFile : Type := {
  originalname : string;
  tmp_path : string
}.

(** A field of [request.body]: absent, one text, or several. *)
Inductive Field : Type :=
| absent
| text (s : string)
| texts (l : list string).

(** The request of [post]: the request proper, the two body fields the
    handler reads, and [request.files] when it is an array. *)
Record Post : Type := {
  post_request : Request;
  body_path : Field;
  body_action : Field;
  files : option (list UploadedFile)
}.

(** The second argument of [setObjectStream]: the request itself, or
    [fs.createReadStream(path)]. *)
Inductive Body : Type :=
| from_request
| from_file (path : string).

Inductive Effect : Type :=
| Respond (r : Response)
| DeleteObjects (paths : list string)
| SetObjectStream (key : string) (body : Body)
| ListDirectory
| ContentType (type : string)
| StreamObject (key : string)
| SetHeader (name value : string)
| PackToResponse
| PackEntry (key name : string) (size : option Z)
| PackFinalize
| CallNext
| Unlink (path : string).

(** What the generator [list] of [post] yields. *)
Record Yield : Type := {
  y_path : string;
  y_size : option Z
}.

Section Handlers.

Context {rt : Runtime}.

(** The collaborators: [listObjects(prefix, authInfo, recursive)], and for
    the two writing calls whether the promise resolves. *)
Variable listObjects : string -> option AuthInfo -> bool -> Listing.
Variable deleteObjects : list string -> bool.
Variable setObjectStream : string -> Body -> bool.

(** [authInfo.role], a field of the [AuthInfo] the controllers are written
    against. *)
Variable role : AuthInfo -> option string.

(** Lines 72-82. *)
Definition streamObject (p : string) : list Effect :=
  ((if endsWith p ".pom" || endsWith p ".nuspec" then [ContentType "text/xml"] else [])
   ++ [StreamObject p])%list.

(** Lines 58-70. *)
Definition read (request : Request) : list Effect :=
  let p := path request in
  if endsWith p "/" then [ListDirectory]
  else streamObject (substring p 1).

(** Lines 84-94. *)
Definition put (request : Request) (response : Response) : list Effect * bool :=
  let p := path request in
  if negb (endsWith p "/") then
    if setObjectStream (substring p 1) from_request then
      ([SetObjectStream (substring p 1) from_request; Respond (send_value None response)],
       true)
    else ([SetObjectStream (substring p 1) from_request], false)
  else ([Respond (send_value None response)], true).

(** [const size = 100] *)
Definition size_ : nat := 100.

(** Lines 105-119: the loop over the listing.  The result is the batches
    passed to [deleteObjects], and the paths still held when the loop ends;
    [None] when a call rejected, which ends the loop. *)
Fixpoint delete_items (p : string) (items : list Item) (paths : list string)
  : list (list string) * option (list string) :=
  match items with
  | [] => ([], Some paths)
  | item :: rest =>
      let filepath := substring (p ++ name item) 1 in
      if file item && validpath (PString filepath) then
        let paths := (paths ++ [filepath])%list in
        if (size_ <=? List.length paths)%nat then
          if deleteObjects paths then
            let (calls, r) := delete_items p rest [] in (paths :: calls, r)
          else ([paths], None)
        else delete_items p rest paths
      else delete_items p rest paths
  end.

(** The end of a batched deletion: the last, partial batch when the
    listing completed, then what the handler does next. *)
Definition finish (calls : list (list string)) (r : option (list string))
  (listed : bool) (next : list Effect) : list Effect * bool :=
  match r with
  | None => (map DeleteObjects calls, false)
  | Some paths =>
      if listed then
        if negb (no_length paths) then
          if deleteObjects paths then
            ((map DeleteObjects calls ++ [DeleteObjects paths] ++ next)%list, true)
          else ((map DeleteObjects calls ++ [DeleteObjects paths])%list, false)
        else ((map DeleteObjects calls ++ next)%list, true)
      else (map DeleteObjects calls, false)
  end.

(** Lines 96-132. *)
Definition delete_ (request : Request) (response : Response) : list Effect * bool :=
  let p := path request in
  if endsWith p "/" then
    let listing := listObjects (substring p 1) (authInfo request) true in
    let (calls, r) := delete_items p (yielded listing) [] in
    finish calls r (completes listing) [Respond (send_value None response)]
  else
    if deleteObjects [substring p 1] then
      ([DeleteObjects [substring p 1]; Respond (send_value None response)], true)
    else ([DeleteObjects [substring p 1]], false).

(** Lines 159-167: the items of one listing that [list] yields. *)
Fixpoint list_items (fullpath : string) (items : list Item) : list Yield :=
  match items with
  | [] => []
  | item :: rest =>
      let itempath := (fullpath ++ name item)%string in
      if file item && validpath (PString itempath) then
        {| y_path := substring itempath 1; y_size := size item |}
        :: list_items fullpath rest
      else list_items fullpath rest
  end.

(** Lines 155-168: the loop of [list] over the names. *)
Fixpoint list_names (p : string) (a : option AuthInfo) (names : list string)
  : list Yield * bool :=
  match names with
  | [] => ([], true)
  | n :: rest =>
      let fullpath := substring (p ++ n) 1 in
      let listing := listObjects fullpath a true in
      let here := list_items fullpath (yielded listing) in
      if completes listing then
        let (more, ok) := list_names p a rest in ((here ++ more)%list, ok)
      else (here, false)
  end.

(** Lines 150-169: [paths] and the generator [list]. *)
Definition selected (r : Post) : list string :=
  match body_path r with
  | text s => [s]
  | texts l => l
  | absent => []
  end.

Definition list_generator (r : Post) : list Yield * bool :=
  let paths := selected r in
  list_names (path (post_request r)) (authInfo (post_request r))
    (if negb (no_length paths) then paths else [EmptyString]).

(** Lines 185-194: the loop of the delete action over what [list] yields. *)
Fixpoint delete_yields (items : list Yield) (fullpaths : list string)
  : list (list string) * option (list string) :=
  match items with
  | [] => ([], Some fullpaths)
  | item :: rest =>
      let fullpaths := (fullpaths ++ [y_path item])%list in
      if (size_ <=? List.length fullpaths)%nat then
        if deleteObjects fullpaths then
          let (calls, r) := delete_yields rest [] in (fullpaths :: calls, r)
        else ([fullpaths], None)
      else delete_yields rest fullpaths
  end.

(** Lines 178 and 207: [authInfo?.role !== "writer" && authInfo?.role !== "owner"]. *)
Definition role_is (a : option AuthInfo) (r : string) : bool :=
  match a with
  | Some i =>
      match role i with
      | Some r' => (r' =? r)%string
      | None => false
      end
  | None => false
  end.

Definition not_a_writer (a : option AuthInfo) : bool :=
  negb (role_is a "writer") && negb (role_is a "owner").

(** Lines 214-225: the loop of the upload action. *)
Fixpoint upload_files (p : string) (fs : list UploadedFile) : list Effect * bool :=
  match fs with
  | [] => ([], true)
  | f :: rest =>
      let fullpath := substring (p ++ originalname f) 1 in
      if validpath (PString fullpath) then
        if setObjectStream fullpath (from_file (tmp_path f)) then
          let (effects, ok) := upload_files p rest in
          (SetObjectStream fullpath (from_file (tmp_path f)) :: effects, ok)
        else ([SetObjectStream fullpath (from_file (tmp_path f))], false)
      else upload_files p rest
  end.

(** Lines 233-235: the name of the archive. *)
Definition archive_name (p : string) : string :=
  (substring2 p
     (lastIndexOf p "/" (Z.of_nat (String.length p) - 2) + 1)
     (Z.of_nat (String.length p) - 1)
   ++ ".tar.gz")%string.

(** Lines 244-253: one entry of the archive per item. *)
Definition pack_entry (p : string) (item : Yield) : Effect :=
  PackEntry (substring (y_path item) 1)
    (substring (y_path item) (String.length p)) (y_size item).

(** Lines 138-265: the body of [try]. *)
Definition post_try (r : Post) (response : Response) : list Effect * bool :=
  let request := post_request r in
  let p := path request in
  if negb (endsWith p "/") then ([Respond (forbidden request response)], true)
  else
    match body_action r with
    | text action =>
        if (action =? "delete")%string then
          if not_a_writer (authInfo request) then
            ([Respond (forbidden request response)], true)
          else
            let (items, listed) := list_generator r in
            let (calls, rest) := delete_yields items [] in
            finish calls rest listed (read request)
        else if (action =? "upload")%string then
          if not_a_writer (authInfo request) then
            ([Respond (forbidden request response)], true)
          else
            let (effects, ok) :=
              match files r with
              | Some fs => upload_files p fs
              | None => ([], true)
              end in
            if ok then ((effects ++ read request)%list, true) else (effects, false)
        else if (action =? "download")%string then
          let (items, listed) := list_generator r in
          (([SetHeader "Content-disposition"
               ("attachment; filename=" ++ archive_name p)%string;
             SetHeader "Content-type" "application/gzip";
             PackToResponse]
            ++ map (pack_entry p) items
            ++ (if listed then [PackFinalize] else []))%list,
           listed)
        else ([CallNext], true)
    | _ => ([CallNext], true)
    end.

(** Lines 267-277: [finally]. *)
Definition unlink_files (r : Post) : list Effect :=
  match files r with
  | Some fs => map (fun f => Unlink (tmp_path f)) fs
  | None => []
  end.

(** Lines 134-279. *)
Definition post (r : Post) (response : Response) : list Effect * bool :=
  let (effects, ok) := post_try r response in
  ((effects ++ unlink_files r)%list, ok).

End Handlers.

(** The paths a run passes to [deleteObjects], in order. *)
Fixpoint deleted (effects : list Effect) : list string :=
  match effects with
  | [] => []
  | DeleteObjects paths :: rest => (paths ++ deleted rest)%list
  | _ :: rest => deleted rest
  end.

(** The batches a run passes to [deleteObjects]. *)
Fixpoint batches (effects : list Effect) : list (list string) :=
  match effects with
  | [] => []
  | DeleteObjects paths :: rest => paths :: batches rest
  | _ :: rest => batches rest
  end.

(** The objects a run writes with [setObjectStream], in order. *)
Fixpoint stored (effects : list Effect) : list (string * Body) :=
  match effects with
  | [] => []
  | SetObjectStream key body :: rest => (key, body) :: stored rest
  | _ :: rest => stored rest
  end.

(** The calls that change the object store. *)
Definition writes (e : Effect) : bool :=
  match e with
  | DeleteObjects _ | SetObjectStream _ _ => true
  | _ => false
  end.

(** The keys of the listed files whose path is valid, for [delete_]. *)
Fixpoint valid_files {rt : Runtime} (p : string) (items : list Item) : list string :=
  match items with
  | [] => []
  | item :: rest =>
      if file item && validpath (PString (substring (p ++ name item) 1)) then
        substring (p ++ name item) 1 :: valid_files p rest
      else valid_files p rest
  end.

(** The uploads whose target path is valid, with the key each is stored
    under, for the upload action of [post]. *)
Fixpoint valid_uploads {rt : Runtime} (p : string) (fs : list UploadedFile)
  : list (string * Body) :=
  match fs with
  | [] => []
  | f :: rest =>
      if validpath (PString (substring (p ++ originalname f) 1)) then
        (substring (p ++ originalname f) 1, from_file (tmp_path f)) :: valid_uploads p rest
      else valid_uploads p rest
  end.

End Controllers.

(** ** More concrete requests *)

Module Scenario.

Import Controllers.

(** A user key whose settings ask for ["write"], and one whose settings
    ask for an access the module does not know. *)
Definition writer_world : World :=
  Example.world (Some (Example.dq "{'access': 'write'}")).


(** A request with a query parameter and a Bearer header. *)
Definition both (p key bearer : string) : Request :=
  {| query_accessKey := QString key;
     header_Authorization := Some ("Bearer " ++ bearer);
     path := p;
     authInfo := None |}.

(** An environment with an empty service key. *)
Definition empty_key_env : Env :=
  fun name =>
    if (name =? "SERVICE_API_KEY")%string then Some EmptyString
    else if (name =? "RESOURCE_IAM_ID")%string then Some "iam-1"
    else None.

(** A directory with a sub-directory, the read-me and two files. *)
Definition listing : Listing :=
  {| yielded :=
       [ {| name := "sub/"; file := false; size := None |};
         {| name := "README"; file := true; size := Some 10 |};
         {| name := "a.txt"; file := true; size := Some 1 |};
         {| name := "b*.txt"; file := true; size := Some 2 |};
         {| name := "c.txt"; file := true; size := Some 3 |} ];
     completes := true |}.

Definition listObjects (prefix : string) (a : option AuthInfo) (recursive : bool)
  : Listing :=
  if (prefix =? "dir/")%string then listing
  else if (prefix =? EmptyString)%string then
    {| yielded := [ {| name := "README"; file := true; size := Some 10 |} ];
       completes := true |}
  else {| yielded := []; completes := true |}.

Definition deleteObjects (paths : list string) : bool := true.

Definition setObjectStream (key : string) (body : Body) : bool := true.

Definition role (i : AuthInfo) : option string :=
  if is_write (access i) then Some "writer"
  else if is_read (access i) then Some "reader"
  else None.

Definition directory (a : Access) : Request :=
  {| query_accessKey := QUndefined;
     header_Authorization := None;
     path := "/dir/";
     authInfo := Some {| access := a; type := None; accessKey := None;
                         apiKey := None; settings := None; match_ := None |} |}.

Definition action (a : Access) (name : string) (fs : list UploadedFile) : Post :=
  {| post_request := directory a;
     body_path := absent;
     body_action := text name;
     files := Some fs |}.

Definition uploads : list UploadedFile :=
  [ {| originalname := "new.txt"; tmp_path := "uploads/1" |};
    {| originalname := "what?.txt"; tmp_path := "uploads/2" |} ].

End Scenario.

(** * Properties *)

Unset Implicit Arguments.

(** ** Strings *)

Lemma startsWith_iff (s p : string) :
  startsWith s p = true <-> exists rest, s = (p ++ rest)%string.
Proof.
  unfold startsWith. revert s.
  induction p as [|c p IH]; intros s; simpl.
  - destruct s; split; eauto.
  - destruct s as [|a s]; simpl.
    + split; [discriminate | intros [rest Hrest]; discriminate].
    + destruct (ascii_dec c a) as [->|Hne].
      * rewrite IH. split; intros [rest Hrest]; exists rest.
        -- now rewrite Hrest.
        -- now injection Hrest.
      * split; [discriminate|].
        intros [rest Hrest]. injection Hrest as Hs Ha. now elim Hne.
Qed.

Lemma truthy_string_iff (s : string) : truthy_string s = true <-> s <> EmptyString.
Proof.
  unfold truthy_string. destruct (String.eqb_spec s EmptyString) as [->|Hne]; simpl.
  - split; [discriminate | intros Hs; now elim Hs].
  - split; auto.
Qed.

Lemma eqb_false_iff (s t : string) : (s =? t)%string = false <-> s <> t.
Proof.
  destruct (String.eqb_spec s t) as [->|Hne].
  - split; [discriminate | intros Hs; now elim Hs].
  - split; auto.
Qed.

(** ** The concrete runtime on known inputs *)

Example base64_user_colon : Node.base64 "dXNlcjo=" = "user:".
Proof. reflexivity. Qed.

Example base64_user_pass : Node.base64 "dXNlcjpwYXNz" = "user:pass".
Proof. reflexivity. Qed.

Example parse_scoped :
  Node.parse Example.scoped_text
  = Some (JObj [("include", JArr [JStr "a/*"]); ("exclude", JArr [JStr "a/secret/*"])]).
Proof. reflexivity. Qed.

Example parse_rejects_open_brace : Node.parse "{bad" = None.
Proof. reflexivity. Qed.

Example parse_rejects_trailing_comma : Node.parse "[1,]" = None.
Proof. reflexivity. Qed.

Example glob_star_is_one_segment :
  Node.glob_match "a/*" "a/file" false = true /\
  Node.glob_match "a/*" "a/secret/file" false = false /\
  Node.glob_match "a/*" "b/file" false = false.
Proof. repeat split; reflexivity. Qed.

(** In partial mode a path that stops short of the pattern matches. *)
Example glob_partial_prefix :
  Node.glob_match "a/secret/*" "a" true = true /\
  Node.glob_match "a/secret/*" "a" false = false /\
  Node.glob_match "a/secret/*" "a/file" true = false.
Proof. repeat split; reflexivity. Qed.

Example glob_star_skips_dot_files :
  Node.glob_match "*.txt" "notes.txt" false = true /\
  Node.glob_match "*.txt" ".txt" false = false.
Proof. repeat split; reflexivity. Qed.

(** ** [validpath] *)

(** C10.  [validpath] answers true exactly for a string that is not empty,
    is neither ["api"] nor ["README"], does not start with ["api/"] and has
    no magic under Minimatch; it answers false for [null], [undefined] and
    the empty string. *)
Theorem validpath_spec :
  forall (rt : Runtime) (path : PathArg),
    (validpath path = true <->
     exists p, path = PString p /\
               p <> EmptyString /\
               p <> "api" /\
               p <> "README" /\
               (forall rest, p <> ("api/" ++ rest)%string) /\
               hasMagic (new_Minimatch p) = false)
    /\ validpath PNull = false
    /\ validpath PUndefined = false
    /\ validpath (PString EmptyString) = false.
Proof.
  intros rt path. split; [|repeat split].
  destruct path as [| |p]; simpl.
  - split; [discriminate | intros (p & Hp & _); discriminate].
  - split; [discriminate | intros (p & Hp & _); discriminate].
  - rewrite !andb_true_iff, !negb_true_iff, truthy_string_iff, !eqb_false_iff.
    split.
    + intros ((((Hne & Hapi) & Hreadme) & Hpre) & Hmagic).
      exists p. repeat split; auto.
      intros rest Hrest.
      assert (startsWith p "api/" = true) as Hs
        by (apply startsWith_iff; now exists rest).
      congruence.
    + intros (p' & Hp & Hne & Hapi & Hreadme & Hpre & Hmagic).
      injection Hp as <-. repeat split; auto.
      destruct (startsWith p "api/") eqn:Hs; [|reflexivity].
      apply startsWith_iff in Hs as [rest ->]. now elim (Hpre rest).
Qed.

Example validpath_on_paths :
  validpath (rt := node) (PString "a/file") = true /\
  validpath (rt := node) (PString "api/keys") = false /\
  validpath (rt := node) (PString "README") = false /\
  validpath (rt := node) (PString "a/*.txt") = false.
Proof. repeat split; reflexivity. Qed.

(** ** The compiled path matcher *)

Section Matcher.

Context {rt : Runtime}.

Lemma existsb_const {A : Type} (l : list A) (b : bool) :
  existsb (fun _ => b) l = negb (no_length l) && b.
Proof.
  induction l as [|a l IH]; simpl; [reflexivity|].
  rewrite IH. destruct b, l; reflexivity.
Qed.

Lemma existsb_orb_const {A : Type} (f : A -> bool) (l : list A) (b : bool) :
  existsb (fun a => f a || b) l = existsb f l || negb (no_length l) && b.
Proof.
  induction l as [|a l IH]; simpl; [reflexivity|].
  rewrite IH. destruct (f a), b, (existsb f l), l; reflexivity.
Qed.

Lemma existsb_andb_const {A : Type} (f : A -> bool) (l : list A) (b : bool) :
  existsb (fun a => f a && b) l = existsb f l && b.
Proof.
  induction l as [|a l IH]; simpl; [reflexivity|].
  rewrite IH. destruct (f a), b, (existsb f l); reflexivity.
Qed.

(** What the expression of lines 191-195 computes: the include matchers
    are never consulted beyond whether there are any. *)
Lemma compiled_match_literal (owner : bool) (inc exc : list Minimatch) (path : string) :
  compiled_match owner inc exc path =
  owner || no_length inc || negb (some_match exc path).
Proof.
  unfold compiled_match, some_match.
  destruct owner; [reflexivity|].
  destruct inc as [|i inc]; [destruct exc; reflexivity|].
  destruct exc as [|e exc].
  - cbn [orb andb no_length].
    rewrite existsb_orb_const. cbn [existsb no_length negb andb].
    apply orb_true_r.
  - cbn [orb andb no_length].
    rewrite existsb_orb_const, existsb_andb_const.
    cbn [no_length negb andb].
    now rewrite ?andb_false_r, ?andb_true_r, ?andb_true_l, ?orb_false_l.
Qed.

(** C3.  With at least one include matcher and at least one exclude
    matcher compiled from the settings of a credential that is not the
    owner, a path no exclude matcher matches is allowed, whether or not an
    include matcher matches it. *)
Theorem exclude_miss_allows :
  forall (settings : JSON) (path : string),
    no_length (matches settings "include") = false ->
    no_length (matches settings "exclude") = false ->
    some_match (matches settings "exclude") path = false ->
    compiled_match false (matches settings "include") (matches settings "exclude") path
    = true.
Proof.
  intros settings path Hinc Hexc Hmiss.
  rewrite compiled_match_literal, Hinc, Hmiss. reflexivity.
Qed.

End Matcher.

(** C3, on the settings [{include: ["a/*"], exclude: ["a/secret/*"]}] and
    the path ["b/file"], which no include matcher matches. *)
Lemma exclude_miss_allows_witness :
  let settings := settings_of (Example.record (Some Example.scoped_text)) in
  some_match (matches settings "include") "b/file" = false /\
  compiled_match false (matches settings "include") (matches settings "exclude") "b/file"
  = true.
Proof.
  split; [reflexivity|].
  apply (exclude_miss_allows (rt := node)); reflexivity.
Defined.

(** ** The cache *)





(** ** Running the [Check:] block *)

Lemma verify_run {rt : Runtime} (w : World) (k : string) (s : St) :
  verify w k s =
  let s' := {| st_authInfo := st_authInfo s; st_cache := cache_after w (st_cache s) k |} in
  match verified w (st_cache s) k with
  | Some r => Normal r s'
  | None => Throw s'
  end.
Proof.
  unfold verified, cache_after, verify, bind, cache_get, cache_set, ret, throw.
  cbn [st_cache st_authInfo].
  destruct (memoryCache_get (now w) k (st_cache s)) as [[r|] c]; [reflexivity|].
  destruct (fetch_details w k) as [|[|] [body|]]; reflexivity.
Qed.

(** The state of [authInfo] once the credential is recorded. *)
Lemma extract_run {rt : Runtime} (request : Request) (k : string) (s : St) :
  read_accessKey request = Some k ->
  truthy_string k = true ->
  extract request s =
  Normal k {| st_authInfo := with_type (source request) (st_authInfo s);
              st_cache := st_cache s |}.
Proof.
  intros Hread Htruthy. unfold extract, bind, assign.
  now rewrite Hread, Htruthy.
Qed.

Lemma extract_break {rt : Runtime} (request : Request) (s : St) :
  match read_accessKey request with
  | Some k => truthy_string k = false
  | None => True
  end ->
  extract request s =
  Break {| st_authInfo := with_type (source request) (st_authInfo s);
           st_cache := st_cache s |}.
Proof.
  intros Hread. unfold extract, bind, assign.
  destruct (read_accessKey request) as [k|]; [now rewrite Hread | reflexivity].
Qed.

(** How lines 214-228 end. *)
Lemma decide_forbidden (request : Request) (response : Response) (i : AuthInfo)
  (k : string) :
  access i = none ->
  accessKey i = Some k ->
  truthy_string k = true ->
  decide false request response i = Sent (forbidden request response).
Proof.
  intros Ha Hk Ht. unfold decide. now rewrite Ha, Hk, Ht.
Qed.

Lemma decide_next (allowUnauthorized : bool) (request : Request) (response : Response)
  (i : AuthInfo) :
  is_none (access i) = false \/ allowUnauthorized = true ->
  decide allowUnauthorized request response i = Next.
Proof.
  intros [H|H]; unfold decide; rewrite H; [reflexivity|].
  now rewrite andb_false_r.
Qed.

Ltac run_check :=
  unfold authorize, check_block, bind, assign, ret, break_Check;
  cbn [st_authInfo st_cache].

Section Engine.

Context {rt : Runtime}.
Variable cfg : Config.
Variables (w : World) (cache : Cache) (request : Request) (response : Response).
Hypothesis fresh : authInfo request = None.

(** C7.  A request with no string-typed [accessKey] query parameter and no
    [Authorization] header, or one whose extracted credential is empty,
    gets an [AuthInfo] with access ["none"] and no [accessKey]; unless
    unauthorized requests are allowed through, the response is 401 with
    [WWW-Authenticate: Basic] and the next handler is not invoked. *)
Theorem no_credential_unauthorized :
  forall (minAccess : MinAccess) (allowUnauthorized : bool),
    ((forall s, query_accessKey request <> QString s) /\
     header_Authorization request = None) \/
    read_accessKey request = None \/
    read_accessKey request = Some EmptyString ->
    let r := authorize cfg minAccess allowUnauthorized w cache request response in
    access (final_authInfo r) = none /\
    accessKey (final_authInfo r) = None /\
    final_cache r = cache /\
    (allowUnauthorized = false ->
     outcome r = Sent (unauthorized request response) /\
     statusCode (unauthorized request response) = 401 /\
     In ("WWW-Authenticate", "Basic") (headers (unauthorized request response)) /\
     outcome r <> Next).
Proof.
  intros minAccess allowUnauthorized Hnone.
  assert (match read_accessKey request with
          | Some k => truthy_string k = false
          | None => True
          end) as Hbreak.
  { destruct Hnone as [[Hq Hh]|[Hr|Hr]].
    - unfold read_accessKey. rewrite Hh.
      destruct (query_accessKey request) as [|s|]; [exact I| now elim (Hq s) | exact I].
    - now rewrite Hr.
    - now rewrite Hr. }
  run_check. rewrite fresh, extract_break by exact Hbreak.
  cbn. split; [reflexivity|]. split; [reflexivity|]. split; [reflexivity|].
  intros ->. split; [reflexivity|]. split; [reflexivity|].
  split; [now left | discriminate].
Qed.

(** From here on the request presents a credential that is not empty. *)
Variable k : string.
Hypothesis presented : read_accessKey request = Some k.
Hypothesis not_empty : truthy_string k = true.

Ltac run_to_record :=
  run_check;
  rewrite fresh, (extract_run request k _ presented not_empty);
  cbn [st_authInfo st_cache];
  rewrite verify_run; cbn [st_authInfo st_cache].

(** C6.  A credential that is not empty and whose verification result is
    Invalid, or whose record is locked or disabled, or whose record has
    another owner id than the configured one while the credential is not
    the service credential, ends with access ["none"]; unless unauthorized
    requests are allowed through, the response is 403 and the next handler
    is not invoked. *)
Theorem rejected_credential_forbidden :
  forall (minAccess : MinAccess) (allowUnauthorized : bool),
    verified w cache k = Some None \/
    (exists r, verified w cache k = Some (Some r) /\
               (locked r = true \/
                disabled r = true \/
                ((k =? serviceApiKey cfg)%string = false /\
                 (iam_id r =? resourceIamId cfg)%string = false))) ->
    let res := authorize cfg minAccess allowUnauthorized w cache request response in
    access (final_authInfo res) = none /\
    (allowUnauthorized = false ->
     outcome res = Sent (forbidden request response) /\
     statusCode (forbidden request response) = 403 /\
     outcome res <> Next).
Proof.
  intros minAccess allowUnauthorized Hrejected.
  cbn zeta. run_to_record.
  destruct Hrejected as [Hv|(r & Hv & Hr)]; rewrite Hv; cbn.
  - split; [reflexivity|]. intros ->.
    rewrite decide_forbidden with (k := k) by (reflexivity || exact not_empty).
    split; [reflexivity|]. split; [reflexivity | discriminate].
  - assert (locked r || disabled r ||
            negb (k =? serviceApiKey cfg)%string &&
            negb (iam_id r =? resourceIamId cfg)%string = true) as Hguard.
    { destruct Hr as [Hr|[Hr|[Ho Hr]]]; rewrite ?Ho, Hr; cbn;
        rewrite ?orb_true_r; reflexivity. }
    rewrite Hguard. cbn.
    split; [reflexivity|]. intros ->.
    rewrite decide_forbidden with (k := k) by (reflexivity || exact not_empty).
    split; [reflexivity|]. split; [reflexivity | discriminate].
Qed.

(** The run of a credential whose record passes the guard of lines
    148-152, whose requested access is ["read"] or ["write"] and whose
    matcher accepts the request path. *)
Lemma authorize_accepted (minAccess : MinAccess) (allowUnauthorized : bool)
  (r : Apikey) (a : Access) :
  let owner := (k =? serviceApiKey cfg)%string in
  let parsed := settings_of r in
  let f := compiled_match owner (matches parsed "include") (matches parsed "exclude") in
  verified w cache k = Some (Some r) ->
  locked r = false ->
  disabled r = false ->
  negb owner && negb (iam_id r =? resourceIamId cfg)%string = false ->
  as_Access (requested owner parsed) = Some a ->
  f (asked_path request) = true ->
  let res := authorize cfg minAccess allowUnauthorized w cache request response in
  access (final_authInfo res) =
    match granted minAccess owner a with Some a' => a' | None => none end /\
  accessKey (final_authInfo res) = Some k /\
  apiKey (final_authInfo res) = Some (Some r) /\
  settings (final_authInfo res) = parse_settings r /\
  match_ (final_authInfo res) = Some f /\
  outcome res = decide allowUnauthorized request response (final_authInfo res) /\
  final_cache res = cache_after w cache k.
Proof.
  intros owner parsed f Hv Hl Hd Hid Ha Hf. cbn zeta.
  run_to_record. rewrite Hv. cbn [st_authInfo st_cache].
  rewrite Hl, Hd. fold owner. rewrite Hid. cbn [orb].
  fold parsed. rewrite Ha. fold f.
  unfold asked_path in Hf. rewrite Hf. cbn [negb].
  unfold settings_of in parsed.
  destruct (parse_settings r) as [v|]; destruct (granted minAccess owner a) as [a'|];
    cbn; repeat split; reflexivity.
Qed.

(** C5.  A credential that is not the owner, is verified and matches the
    request path: under a minimum of ["read"] the final access is the
    requested access, ["read"] or ["write"]; under a minimum of ["write"]
    it is ["write"] when ["write"] was requested, and stays ["none"] when
    ["read"] was requested, which is answered with 403 unless unauthorized
    requests are allowed through. *)
Theorem verified_access_levels :
  forall (allowUnauthorized : bool) (r : Apikey) (a : Access),
    (k =? serviceApiKey cfg)%string = false ->
    verified w cache k = Some (Some r) ->
    locked r = false ->
    disabled r = false ->
    (iam_id r =? resourceIamId cfg)%string = true ->
    as_Access (requested false (settings_of r)) = Some a ->
    compiled_match false (matches (settings_of r) "include")
      (matches (settings_of r) "exclude") (asked_path request) = true ->
    let run m := authorize cfg m allowUnauthorized w cache request response in
    (a = read \/ a = write) /\
    (access (final_authInfo (run min_read)) = a /\ outcome (run min_read) = Next) /\
    (a = write ->
     access (final_authInfo (run min_write)) = write /\
     outcome (run min_write) = Next) /\
    (a = read ->
     access (final_authInfo (run min_write)) = none /\
     (allowUnauthorized = false ->
      outcome (run min_write) = Sent (forbidden request response) /\
      statusCode (forbidden request response) = 403)).
Proof.
  intros allowUnauthorized r a Ho Hv Hl Hd Hid Ha Hf. cbn zeta.
  assert (forall m,
             let res := authorize cfg m allowUnauthorized w cache request response in
             access (final_authInfo res) =
               match granted m false a with Some a' => a' | None => none end /\
             accessKey (final_authInfo res) = Some k /\
             outcome res = decide allowUnauthorized request response (final_authInfo res))
    as Hrun.
  { intros m. cbn zeta.
    pose proof (authorize_accepted m allowUnauthorized r a) as H.
    cbn zeta in H. rewrite Ho, Hid in H.
    destruct (H Hv Hl Hd eq_refl Ha Hf) as (H1 & H2 & _ & _ & _ & H6 & _).
    auto. }
  assert (a = read \/ a = write) as Hrw.
  { unfold as_Access in Ha.
    destruct (requested false (settings_of r)) as [| | |s| |]; try discriminate.
    destruct (s =? "read")%string; [left; congruence|].
    destruct (s =? "write")%string; [right; congruence | discriminate]. }
  split; [exact Hrw|].
  split; [|split].
  - destruct (Hrun min_read) as (H1 & H2 & H3). rewrite H3.
    destruct Hrw as [-> | ->]; cbn in H1; rewrite H1;
      (split; [reflexivity|]); apply decide_next; left; now rewrite H1.
  - intros ->. destruct (Hrun min_write) as (H1 & H2 & H3). rewrite H3.
    cbn in H1. split; [exact H1|]. apply decide_next; left; now rewrite H1.
  - intros ->. destruct (Hrun min_write) as (H1 & H2 & H3). rewrite H3.
    cbn in H1. split; [exact H1|]. intros ->.
    rewrite decide_forbidden with (k := k); auto.
Qed.

(** C8.  A verified credential that is not the owner and whose
    description does not parse as JSON is handled as one without settings:
    [authInfo.settings] stays unassigned, the requested access is
    ["read"], the compiled matcher accepts every path, and the run goes on
    to the comparison with the minimum access instead of stopping at the
    parsing step. *)
Theorem malformed_settings_fail_open :
  forall (minAccess : MinAccess) (allowUnauthorized : bool) (r : Apikey) (d : string),
    (k =? serviceApiKey cfg)%string = false ->
    verified w cache k = Some (Some r) ->
    locked r = false ->
    disabled r = false ->
    (iam_id r =? resourceIamId cfg)%string = true ->
    description r = Some d ->
    JSON_parse d = None ->
    let res := authorize cfg minAccess allowUnauthorized w cache request response in
    settings (final_authInfo res) = None /\
    requested false (settings_of r) = JStr "read" /\
    (exists f, match_ (final_authInfo res) = Some f /\ forall p, f p = true) /\
    access (final_authInfo res) = (if is_min_read minAccess then read else none) /\
    (minAccess = min_read -> outcome res = Next).
Proof.
  intros minAccess allowUnauthorized r d Ho Hv Hl Hd Hid Hdesc Hparse. cbn zeta.
  assert (parse_settings r = None) as Hnone.
  { unfold parse_settings. rewrite Hdesc, Hparse. now destruct (truthy_string d). }
  assert (settings_of r = JNull) as Hnull.
  { unfold settings_of. now rewrite Hnone. }
  pose proof (authorize_accepted minAccess allowUnauthorized r read) as H.
  cbn zeta in H. rewrite Ho, Hid, Hnull in H.
  destruct (H Hv Hl Hd eq_refl eq_refl eq_refl) as (H1 & H2 & _ & H4 & H5 & H6 & _).
  rewrite Hnull. split; [now rewrite H4|]. split; [reflexivity|].
  split; [eexists; split; [exact H5 | reflexivity]|].
  split.
  - rewrite H1. now destruct minAccess.
  - intros ->. rewrite H6. apply decide_next. left. now rewrite H1.
Qed.

(** C4, as the code has it.  A credential equal to the service credential
    whose record is neither Invalid nor locked nor disabled is the owner:
    whatever its settings and the owner id of its record, the requested
    access is ["write"], the compiled matcher accepts every path, the
    final access is ["write"] under every minimum and the next handler is
    invoked. *)
Theorem service_credential_is_owner :
  forall (minAccess : MinAccess) (allowUnauthorized : bool) (r : Apikey),
    (k =? serviceApiKey cfg)%string = true ->
    verified w cache k = Some (Some r) ->
    locked r = false ->
    disabled r = false ->
    let res := authorize cfg minAccess allowUnauthorized w cache request response in
    requested true (settings_of r) = JStr "write" /\
    (exists f, match_ (final_authInfo res) = Some f /\ forall p, f p = true) /\
    access (final_authInfo res) = write /\
    outcome res = Next.
Proof.
  intros minAccess allowUnauthorized r Ho Hv Hl Hd. cbn zeta.
  pose proof (authorize_accepted minAccess allowUnauthorized r write) as H.
  cbn zeta in H. rewrite Ho in H.
  destruct (H Hv Hl Hd eq_refl eq_refl eq_refl) as (H1 & H2 & _ & H4 & H5 & H6 & _).
  assert (access
            (final_authInfo
               (authorize cfg minAccess allowUnauthorized w cache request response))
          = write) as Hw.
  { rewrite H1. now destruct minAccess. }
  split; [reflexivity|].
  split; [eexists; split; [exact H5 | reflexivity]|].
  split; [exact Hw|].
  rewrite H6. apply decide_next. left. now rewrite Hw.
Qed.


End Engine.

(** ** A request that already carries an [AuthInfo] *)

(** C2, as the code has it.  When the request already carries an
    [AuthInfo], the middleware leaves it and the cache as they are and does
    not look at its own minimum access: the next handler is invoked when
    the stored access is not ["none"] or unauthorized requests are allowed
    through, and the request is answered with 403 or 401 otherwise. *)
Theorem stored_authInfo_reused :
  forall (rt : Runtime) (cfg : Config) (minAccess : MinAccess)
         (allowUnauthorized : bool) (w : World) (cache : Cache)
         (request : Request) (response : Response) (i : AuthInfo),
    authInfo request = Some i ->
    let res := authorize cfg minAccess allowUnauthorized w cache request response in
    final_authInfo res = i /\
    final_cache res = cache /\
    (forall minAccess',
        authorize cfg minAccess' allowUnauthorized w cache request response = res) /\
    (is_none (access i) = false \/ allowUnauthorized = true -> outcome res = Next) /\
    (access i = none -> allowUnauthorized = false ->
     outcome res =
       match accessKey i with
       | Some k => if truthy_string k then Sent (forbidden request response)
                   else Sent (unauthorized request response)
       | None => Sent (unauthorized request response)
       end).
Proof.
  intros rt cfg minAccess allowUnauthorized w cache request response i Hi.
  cbn zeta. unfold authorize. rewrite Hi. cbn.
  split; [reflexivity|]. split; [reflexivity|]. split; [reflexivity|]. split.
  - apply decide_next.
  - intros Ha ->. unfold decide. now rewrite Ha.
Qed.

(** C2, on the request of a user whose access is ["read"], after a first
    guard [authorize("read")] has let it through. *)
Lemma stored_authInfo_reused_witness :
  let request := Example.carry (Example.get "/a/file" "user-key") Example.first_pass in
  let res := authorize (rt := node) Example.cfg min_owner false (Example.world None)
               (final_cache Example.first_pass) request Example.response0 in
  final_authInfo res = final_authInfo Example.first_pass /\
  outcome res = Next.
Proof.
  pose proof (stored_authInfo_reused node Example.cfg min_owner false (Example.world None)
                (final_cache Example.first_pass)
                (Example.carry (Example.get "/a/file" "user-key") Example.first_pass)
                Example.response0 (final_authInfo Example.first_pass) eq_refl)
    as (Hinfo & _ & _ & Hnext & _).
  split; [exact Hinfo|].
  apply Hnext. left. reflexivity.
Defined.

(** C2 fails as stated: behind a first guard [authorize("read")], the
    guard [authorize("owner")] lets the request of a user who is not the
    owner through, with the stored access ["read"]. *)
Lemma reuse_skips_owner_check :
  let request := Example.carry (Example.get "/a/file" "user-key") Example.first_pass in
  let res := authorize (rt := node) Example.cfg min_owner false (Example.world None)
               (final_cache Example.first_pass) request Example.response0 in
  accessKey (final_authInfo res) = Some "user-key" /\
  ("user-key" =? serviceApiKey Example.cfg)%string = false /\
  access (final_authInfo res) = read /\
  outcome res = Next.
Proof.
  cbn zeta. repeat split; reflexivity.
Qed.

(** ** Concrete runs *)

(** C7, on a request without header or query parameter, and on one whose
    Basic credentials ["user:"] carry an empty password. *)
Lemma no_credential_unauthorized_witness :
  (let r := authorize (rt := node) Example.cfg min_read false (Example.world None) []
              (Example.anonymous "/a/file") Example.response0 in
   access (final_authInfo r) = none /\
   accessKey (final_authInfo r) = None /\
   outcome r = Sent (unauthorized (Example.anonymous "/a/file") Example.response0)) /\
  (let r := authorize (rt := node) Example.cfg min_read false (Example.world None) []
              (Example.basic "/a/file" "dXNlcjo=") Example.response0 in
   access (final_authInfo r) = none /\
   accessKey (final_authInfo r) = None /\
   outcome r = Sent (unauthorized (Example.basic "/a/file" "dXNlcjo=") Example.response0)).
Proof.
  split.
  - destruct (no_credential_unauthorized (rt := node) Example.cfg (Example.world None) []
                (Example.anonymous "/a/file") Example.response0 eq_refl min_read false)
      as (Ha & Hk & _ & Hout).
    + left. split; [intros s; discriminate | reflexivity].
    + split; [exact Ha|]. split; [exact Hk|]. exact (proj1 (Hout eq_refl)).
  - destruct (no_credential_unauthorized (rt := node) Example.cfg (Example.world None) []
                (Example.basic "/a/file" "dXNlcjo=") Example.response0 eq_refl
                min_read false)
      as (Ha & Hk & _ & Hout).
    + right. right. reflexivity.
    + split; [exact Ha|]. split; [exact Hk|]. exact (proj1 (Hout eq_refl)).
Defined.

(** C6, on a key the provider does not know. *)
Lemma rejected_credential_forbidden_witness :
  let r := authorize (rt := node) Example.cfg min_read false (Example.world None) []
             (Example.get "/a/file" "other") Example.response0 in
  access (final_authInfo r) = none /\
  outcome r = Sent (forbidden (Example.get "/a/file" "other") Example.response0).
Proof.
  destruct (rejected_credential_forbidden (rt := node) Example.cfg (Example.world None) []
              (Example.get "/a/file" "other") Example.response0 eq_refl
              "other" eq_refl eq_refl min_read false)
    as (Ha & Hout).
  - left. reflexivity.
  - split; [exact Ha | exact (proj1 (Hout eq_refl))].
Defined.

(** C5, on a user key whose settings ask for nothing, hence ["read"]. *)
Lemma verified_access_levels_witness :
  let run m := authorize (rt := node) Example.cfg m false
                 (Example.world (Some Example.scoped_text)) []
                 (Example.get "/a/file" "user-key") Example.response0 in
  access (final_authInfo (run min_read)) = read /\
  outcome (run min_read) = Next /\
  access (final_authInfo (run min_write)) = none /\
  outcome (run min_write)
  = Sent (forbidden (Example.get "/a/file" "user-key") Example.response0).
Proof.
  destruct (verified_access_levels (rt := node) Example.cfg
              (Example.world (Some Example.scoped_text)) []
              (Example.get "/a/file" "user-key") Example.response0 eq_refl
              "user-key" eq_refl eq_refl false
              (Example.record (Some Example.scoped_text)) read
              eq_refl eq_refl eq_refl eq_refl eq_refl eq_refl eq_refl)
    as (_ & (Hr & Hn) & _ & Hw).
  destruct (Hw eq_refl) as (Hnone & Hout).
  split; [exact Hr|]. split; [exact Hn|]. split; [exact Hnone|].
  exact (proj1 (Hout eq_refl)).
Defined.

(** C8, on a user key whose description is the text [{bad]. *)
Lemma malformed_settings_fail_open_witness :
  let r := authorize (rt := node) Example.cfg min_read false
             (Example.world (Some "{bad")) []
             (Example.get "/any/path" "user-key") Example.response0 in
  settings (final_authInfo r) = None /\
  access (final_authInfo r) = read /\
  outcome r = Next.
Proof.
  destruct (malformed_settings_fail_open (rt := node) Example.cfg (Example.world (Some "{bad")) []
              (Example.get "/any/path" "user-key") Example.response0 eq_refl
              "user-key" eq_refl eq_refl min_read false
              (Example.record (Some "{bad")) "{bad"
              eq_refl eq_refl eq_refl eq_refl eq_refl eq_refl eq_refl)
    as (Hs & _ & _ & Ha & Hn).
  split; [exact Hs|]. split; [exact Ha | exact (Hn eq_refl)].
Defined.

(** C4, on the service key, whose record has another owner id and whose
    settings ask for the access ["none"]. *)
Lemma service_credential_is_owner_witness :
  let r := authorize (rt := node) Example.cfg min_owner false
             (Example.world (Some (Example.dq "{'access': 'none'}"))) []
             (Example.get "/any/path" "service-key") Example.response0 in
  access (final_authInfo r) = write /\
  outcome r = Next.
Proof.
  destruct (service_credential_is_owner (rt := node) Example.cfg
              (Example.world (Some (Example.dq "{'access': 'none'}"))) []
              (Example.get "/any/path" "service-key") Example.response0 eq_refl
              "service-key" eq_refl eq_refl min_owner false
              {| iam_id := "iam-service"; locked := false; disabled := false;
                 description := Some (Example.dq "{'access': 'none'}") |}
              eq_refl eq_refl eq_refl eq_refl)
    as (_ & _ & Ha & Hn).
  split; [exact Ha | exact Hn].
Defined.

(** C4 fails as stated: when the record of the service key is locked, the
    request is answered with 403, the access is ["none"] and no matcher is
    installed. *)
Lemma locked_service_credential_rejected :
  let request := Example.get "/any/path" "service-key" in
  let r := authorize (rt := node) Example.cfg min_read false Example.locked_world []
             request Example.response0 in
  accessKey (final_authInfo r) = Some (serviceApiKey Example.cfg) /\
  access (final_authInfo r) = none /\
  match_ (final_authInfo r) = None /\
  outcome r = Sent (forbidden request Example.response0).
Proof.
  cbn zeta. repeat split; reflexivity.
Qed.



(** C1.  What the code does on the settings
    [{include: ["a/*"], exclude: ["a/secret/*"]}] of a user key: the path
    ["a/file"] is allowed and ["a/secret/file"] is denied, but ["b/file"]
    is allowed as well, where the conjunction of the include and exclude
    conditions denies it. *)
Theorem scoped_b_file_allowed :
  let parsed := settings_of (rt := node) (Example.record (Some Example.scoped_text)) in
  let inc := matches parsed "include" in
  let exc := matches parsed "exclude" in
  let r := authorize (rt := node) Example.cfg min_read false
             (Example.world (Some Example.scoped_text)) []
             (Example.get "/b/file" "user-key") Example.response0 in
  inc = [new_Minimatch "a/*"] /\
  exc = [new_Minimatch "a/secret/*"] /\
  compiled_match false inc exc "a/file" = true /\
  compiled_match false inc exc "a/secret/file" = false /\
  compiled_match false inc exc "b/file" = true /\
  conjunctive_match inc exc "b/file" = false /\
  access (final_authInfo r) = read /\
  outcome r = Next.
Proof.
  cbn zeta. repeat split; reflexivity.
Qed.

(** * More properties of the module *)

(** ** Where the credential comes from *)

Lemma append_assoc (a b c : string) : ((a ++ b) ++ c = a ++ (b ++ c))%string.
Proof.
  induction a as [|x a IH]; simpl; [reflexivity | now rewrite IH].
Qed.

Lemma length_append (a b : string) :
  String.length (a ++ b) = (String.length a + String.length b)%nat.
Proof.
  induction a as [|x a IH]; simpl; [reflexivity | now rewrite IH].
Qed.

Lemma append_empty_r (a : string) : (a ++ EmptyString)%string = a.
Proof.
  induction a as [|x a IH]; simpl; [reflexivity | now rewrite IH].
Qed.

Lemma substring_app (p rest : string) :
  substring (p ++ rest) (String.length p) = rest.
Proof.
  induction p as [|c p IH]; simpl; [now destruct rest | exact IH].
Qed.

Lemma indexOf_app (u rest : string) (c : ascii) :
  indexOf u c = None ->
  indexOf (u ++ String c rest) c = Some (String.length u).
Proof.
  induction u as [|a u IH]; simpl.
  - intros _. now rewrite Ascii.eqb_refl.
  - destruct (Ascii.eqb a c); [discriminate|].
    destruct (indexOf u c); [discriminate|].
    intros _. now rewrite IH.
Qed.

Lemma indexOf_none_app (u rest : string) (c : ascii) :
  indexOf (u ++ rest) c = None -> indexOf u c = None.
Proof.
  induction u as [|a u IH]; simpl; [reflexivity|].
  destruct (Ascii.eqb a c); [discriminate|].
  destruct (indexOf (u ++ rest) c); [discriminate|].
  intros _. now rewrite IH.
Qed.

Section Extraction.

Context {rt : Runtime}.
Variable request : Request.
Hypothesis no_query : forall s, query_accessKey request <> QString s.

Lemma read_header :
  read_accessKey request =
  read_accessKey {| query_accessKey := QUndefined;
                    header_Authorization := header_Authorization request;
                    path := path request; authInfo := authInfo request |}.
Proof.
  unfold read_accessKey. cbn [query_accessKey header_Authorization].
  destruct (query_accessKey request) as [|s|]; [reflexivity | now elim (no_query s) | reflexivity].
Qed.

(** X2.  Without a string-typed query parameter, a header [Bearer <token>]
    presents exactly the token: nothing is trimmed or decoded. *)
Theorem bearer_token_is_credential :
  forall token : string,
    header_Authorization request = Some ("Bearer " ++ token)%string ->
    source request = type_authHeader /\
    read_accessKey request = Some token.
Proof.
  intros token Hh. split.
  - unfold source. destruct (query_accessKey request) as [|s|];
      [reflexivity | now elim (no_query s) | reflexivity].
  - rewrite read_header. unfold read_accessKey.
    cbn [query_accessKey header_Authorization]. rewrite Hh.
    change (truthy_string ("Bearer " ++ token)) with true. cbn [negb].
    assert (startsWith ("Bearer " ++ token) "Bearer " = true) as ->
      by (apply startsWith_iff; now exists token).
    now rewrite substring_app.
Qed.

(** X3.  Without a string-typed query parameter, a header [Basic <text>]
    whose text decodes to [user:password], the user name without colon,
    presents the password, later colons included; a decoded text without
    any colon is presented whole. *)
Theorem basic_password_is_credential :
  forall text : string,
    header_Authorization request = Some ("Basic " ++ text)%string ->
    (forall user password,
        base64_decode text = (user ++ ":" ++ password)%string ->
        indexOf user ":"%char = None ->
        read_accessKey request = Some password) /\
    (indexOf (base64_decode text) ":"%char = None ->
     read_accessKey request = Some (base64_decode text)).
Proof.
  intros text Hh.
  assert (read_accessKey request =
          match indexOf (base64_decode text) ":"%char with
          | Some p => Some (substring (base64_decode text) (p + 1))
          | None => Some (base64_decode text)
          end) as Hread.
  { rewrite read_header. unfold read_accessKey.
    cbn [query_accessKey header_Authorization]. rewrite Hh.
    change (truthy_string ("Basic " ++ text)) with true. cbn [negb].
    change (startsWith ("Basic " ++ text) "Bearer ") with false.
    assert (startsWith ("Basic " ++ text) "Basic " = true) as ->
      by (apply startsWith_iff; now exists text).
    now rewrite substring_app. }
  split.
  - intros user password Hdecode Huser. rewrite Hread, Hdecode.
    change (user ++ ":" ++ password)%string with (user ++ String ":" password)%string.
    rewrite indexOf_app by exact Huser.
    change (user ++ String ":" password)%string
      with (user ++ (":" ++ password))%string.
    rewrite <- append_assoc.
    replace (String.length user + 1)%nat with (String.length (user ++ ":"))
      by (now rewrite length_append).
    now rewrite substring_app.
  - intros Hnone. now rewrite Hread, Hnone.
Qed.

End Extraction.

(** X2, on the request [Example.get], and X3, on Basic credentials that
    decode to ["user:pass"]. *)
Lemma bearer_token_is_credential_witness :
  read_accessKey (rt := node) (Example.get "/a/file" "user-key") = Some "user-key".
Proof.
  apply (bearer_token_is_credential (rt := node) (Example.get "/a/file" "user-key")
           (fun s H => eq_ind QUndefined
                         (fun q => match q with QString _ => False | _ => True end)
                         I (QString s) H)
           "user-key" eq_refl).
Defined.

Lemma basic_password_is_credential_witness :
  read_accessKey (rt := node) (Example.basic "/a/file" "dXNlcjpwYXNz") = Some "pass".
Proof.
  apply (proj1 (basic_password_is_credential (rt := node)
                  (Example.basic "/a/file" "dXNlcjpwYXNz")
                  (fun s H => eq_ind QUndefined
                                (fun q => match q with QString _ => False | _ => True end)
                                I (QString s) H)
                  "dXNlcjpwYXNz" eq_refl) "user" "pass"); reflexivity.
Defined.

(** ** What a run can and cannot do *)

Section Guarantees.

Context {rt : Runtime}.
Variable cfg : Config.
Variables (w : World) (cache : Cache) (request : Request) (response : Response).

(** X4.  With [allowUnauthorized] the middleware never answers by itself:
    it invokes the next handler, or its promise rejects; a request that
    already carries an [AuthInfo] always reaches the next handler. *)
Theorem allowUnauthorized_never_responds :
  forall minAccess : MinAccess,
    let res := authorize cfg minAccess true w cache request response in
    (outcome res = Next \/ outcome res = Rejected) /\
    (authInfo request <> None -> outcome res = Next).
Proof.
  intros minAccess. cbn zeta. unfold authorize.
  destruct (authInfo request) as [i|].
  - cbn. split; [left|intros _]; apply decide_next; now right.
  - destruct (check_block cfg minAccess w request _) as [u s|s|s]; cbn;
      (split; [|intros H; now elim H]).
    + left. apply decide_next. now right.
    + left. apply decide_next. now right.
    + now right.
Qed.

Hypothesis fresh : authInfo request = None.

(** Everything that must hold for a request without [AuthInfo] to end with
    an access other than ["none"]. *)
Lemma fresh_grant_inv (minAccess : MinAccess) (allowUnauthorized : bool) :
  let res := authorize cfg minAccess allowUnauthorized w cache request response in
  access (final_authInfo res) <> none ->
  exists k r a,
    let owner := (k =? serviceApiKey cfg)%string in
    read_accessKey request = Some k /\
    truthy_string k = true /\
    verified w cache k = Some (Some r) /\
    locked r = false /\
    disabled r = false /\
    negb owner && negb (iam_id r =? resourceIamId cfg)%string = false /\
    as_Access (requested owner (settings_of r)) = Some a /\
    compiled_match owner (matches (settings_of r) "include")
      (matches (settings_of r) "exclude") (asked_path request) = true /\
    granted minAccess owner a = Some (access (final_authInfo res)) /\
    accessKey (final_authInfo res) = Some k /\
    apiKey (final_authInfo res) = Some (Some r) /\
    match_ (final_authInfo res)
    = Some (compiled_match owner (matches (settings_of r) "include")
              (matches (settings_of r) "exclude")) /\
    outcome res = Next.
Proof.
  cbn zeta.
  destruct (read_accessKey request) as [k|] eqn:Hread.
  2:{ unfold authorize, check_block, bind. rewrite fresh, extract_break
        by (now rewrite Hread).
      cbn. intros H. now elim H. }
  destruct (truthy_string k) eqn:Hk.
  2:{ unfold authorize, check_block, bind. rewrite fresh, extract_break
        by (now rewrite Hread).
      cbn. intros H. now elim H. }
  destruct (verified w cache k) as [[r|]|] eqn:Hv.
  2,3: unfold authorize, check_block, bind, assign, ret, break_Check;
       rewrite fresh, (extract_run request k _ Hread Hk);
       cbn [st_authInfo st_cache]; rewrite verify_run;
       cbn [st_authInfo st_cache]; rewrite Hv; cbn; intros H; now elim H.
  destruct (locked r || disabled r ||
            negb (k =? serviceApiKey cfg)%string &&
            negb (iam_id r =? resourceIamId cfg)%string) eqn:Hguard.
  { unfold authorize, check_block, bind, assign, ret, break_Check.
    rewrite fresh, (extract_run request k _ Hread Hk).
    cbn [st_authInfo st_cache]. rewrite verify_run.
    cbn [st_authInfo st_cache]. rewrite Hv. cbn [st_authInfo st_cache].
    rewrite Hguard. cbn. intros H. now elim H. }
  apply orb_false_iff in Hguard as [Hguard Hid].
  apply orb_false_iff in Hguard as [Hl Hd].
  destruct (as_Access (requested (k =? serviceApiKey cfg)%string (settings_of r)))
    as [a|] eqn:Ha.
  2:{ unfold authorize, check_block, bind, assign, ret, break_Check.
      rewrite fresh, (extract_run request k _ Hread Hk).
      cbn [st_authInfo st_cache]. rewrite verify_run.
      cbn [st_authInfo st_cache]. rewrite Hv. cbn [st_authInfo st_cache].
      rewrite Hl, Hd, Hid. cbn [orb]. rewrite Ha.
      destruct (parse_settings r); cbn; intros H; now elim H. }
  destruct (compiled_match (k =? serviceApiKey cfg)%string
              (matches (settings_of r) "include") (matches (settings_of r) "exclude")
              (asked_path request)) eqn:Hf.
  2:{ unfold authorize, check_block, bind, assign, ret, break_Check.
      rewrite fresh, (extract_run request k _ Hread Hk).
      cbn [st_authInfo st_cache]. rewrite verify_run.
      cbn [st_authInfo st_cache]. rewrite Hv. cbn [st_authInfo st_cache].
      rewrite Hl, Hd, Hid. cbn [orb]. rewrite Ha.
      unfold asked_path in Hf. rewrite Hf.
      destruct (parse_settings r); cbn; intros H; now elim H. }
  pose proof (authorize_accepted cfg w cache request response fresh k Hread Hk
                minAccess allowUnauthorized r a Hv Hl Hd Hid Ha Hf)
    as (H1 & H2 & H3 & _ & H5 & H6 & _).
  intros Hgranted.
  assert (granted minAccess (k =? serviceApiKey cfg)%string a
          = Some (access
                    (final_authInfo
                       (authorize cfg minAccess allowUnauthorized w cache request
                          response)))) as Hg.
  { rewrite H1 in Hgranted |- *.
    destruct (granted minAccess (k =? serviceApiKey cfg)%string a) as [a'|];
      [reflexivity | now elim Hgranted]. }
  assert (outcome (authorize cfg minAccess allowUnauthorized w cache request response)
          = Next) as Hnext.
  { rewrite H6. apply decide_next. left.
    destruct (access (final_authInfo
                        (authorize cfg minAccess allowUnauthorized w cache request
                           response))); [now elim Hgranted | reflexivity | reflexivity]. }
  exists k, r, a. cbn zeta. repeat split; assumption.
Qed.

Lemma as_Access_inv (v : JSON) (a : Access) :
  as_Access v = Some a ->
  (a = read /\ v = JStr "read") \/ (a = write /\ v = JStr "write").
Proof.
  unfold as_Access. destruct v as [| | |s| |]; try discriminate.
  destruct (String.eqb_spec s "read") as [->|_]; [left; split; congruence|].
  destruct (String.eqb_spec s "write") as [->|_]; [right; split; congruence|].
  discriminate.
Qed.

(** X5.  A request without [AuthInfo] ends with an access other than
    ["none"] only if it presented a credential that is not empty, whose
    record was verified and is neither locked nor disabled and belongs to
    the configured owner id (unless the credential is the service
    credential), and if the matcher installed in [authInfo.match] accepts
    the request path; the next handler is then invoked. *)
Theorem grant_is_sound :
  forall (minAccess : MinAccess) (allowUnauthorized : bool),
    let res := authorize cfg minAccess allowUnauthorized w cache request response in
    access (final_authInfo res) <> none ->
    exists k r f,
      read_accessKey request = Some k /\
      k <> EmptyString /\
      accessKey (final_authInfo res) = Some k /\
      verified w cache k = Some (Some r) /\
      apiKey (final_authInfo res) = Some (Some r) /\
      locked r = false /\
      disabled r = false /\
      (k = serviceApiKey cfg \/ iam_id r = resourceIamId cfg) /\
      match_ (final_authInfo res) = Some f /\
      f (asked_path request) = true /\
      outcome res = Next.
Proof.
  intros minAccess allowUnauthorized. cbn zeta. intros Hgranted.
  destruct (fresh_grant_inv minAccess allowUnauthorized Hgranted)
    as (k & r & a & Hread & Hk & Hv & Hl & Hd & Hid & _ & Hf & _ & Hkey & Hrec & Hm & Hn).
  exists k, r, (compiled_match (k =? serviceApiKey cfg)%string
                  (matches (settings_of r) "include")
                  (matches (settings_of r) "exclude")).
  repeat (split; [first [assumption | now apply truthy_string_iff] |]).
  split; [|repeat split; assumption].
  destruct (String.eqb_spec k (serviceApiKey cfg)) as [->|_]; [now left|].
  destruct (String.eqb_spec (iam_id r) (resourceIamId cfg)) as [->|_]; [now right|].
  discriminate.
Qed.

(** X6.  The minimum is respected on a request without [AuthInfo]: under
    ["owner"] only the service credential gets an access other than
    ["none"], and under ["write"] or ["owner"] that access is never
    ["read"]. *)
Theorem minimum_access_respected :
  forall (minAccess : MinAccess) (allowUnauthorized : bool),
    let res := authorize cfg minAccess allowUnauthorized w cache request response in
    access (final_authInfo res) <> none ->
    (minAccess = min_owner ->
     accessKey (final_authInfo res) = Some (serviceApiKey cfg)) /\
    (minAccess <> min_read -> access (final_authInfo res) = write).
Proof.
  intros minAccess allowUnauthorized. cbn zeta. intros Hgranted.
  destruct (fresh_grant_inv minAccess allowUnauthorized Hgranted)
    as (k & r & a & _ & _ & _ & _ & _ & _ & Ha & _ & Hg & Hkey & _).
  cbn zeta in Hg, Ha.
  set (final := access _) in *.
  destruct (as_Access_inv _ _ Ha) as [[-> _]|[-> _]];
    unfold granted in Hg; split.
  - intros ->. cbn in Hg.
    destruct (String.eqb_spec k (serviceApiKey cfg)) as [->|_]; [exact Hkey|].
    cbn in Hg. injection Hg as Hg. now elim Hgranted.
  - destruct minAccess; [intros H; now elim H| |]; intros _.
    + cbn in Hg. discriminate.
    + destruct (k =? serviceApiKey cfg)%string; cbn in Hg;
        [discriminate | injection Hg as Hg; now elim Hgranted].
  - intros ->. cbn in Hg.
    destruct (String.eqb_spec k (serviceApiKey cfg)) as [->|_]; [exact Hkey|].
    cbn in Hg. injection Hg as Hg. now elim Hgranted.
  - intros _.
    destruct (is_owner minAccess && negb (k =? serviceApiKey cfg)%string);
      cbn in Hg; injection Hg as Hg; [now elim Hgranted | congruence].
Qed.

(** X7.  On a request without [AuthInfo], a credential other than the
    service credential ends with the access ["write"] only if the
    description of its record parses to an object whose property [access]
    is the string ["write"]. *)
Theorem write_needs_explicit_setting :
  forall (minAccess : MinAccess) (allowUnauthorized : bool),
    let res := authorize cfg minAccess allowUnauthorized w cache request response in
    access (final_authInfo res) = write ->
    accessKey (final_authInfo res) = Some (serviceApiKey cfg) \/
    exists r d fields,
      apiKey (final_authInfo res) = Some (Some r) /\
      description r = Some d /\
      JSON_parse d = Some (JObj fields) /\
      lookup fields "access" = Some (JStr "write").
Proof.
  intros minAccess allowUnauthorized. cbn zeta. intros Hwrite.
  assert (access
            (final_authInfo
               (authorize cfg minAccess allowUnauthorized w cache request response))
          <> none) as Hgranted by (rewrite Hwrite; discriminate).
  destruct (fresh_grant_inv minAccess allowUnauthorized Hgranted)
    as (k & r & a & _ & _ & _ & _ & _ & _ & Ha & _ & Hg & Hkey & Hrec & _).
  cbn zeta in Hg, Ha. rewrite Hwrite in Hg.
  destruct (String.eqb_spec k (serviceApiKey cfg)) as [->|_]; [now left|].
  right.
  assert (a = write) as ->.
  { unfold granted in Hg.
    destruct (is_owner minAccess && negb false); [discriminate|].
    destruct (is_write a || is_read a && is_min_read minAccess); congruence. }
  destruct (as_Access_inv _ _ Ha) as [[Hr _]|[_ Hreq]]; [discriminate|].
  unfold requested in Hreq. unfold settings_of, parse_settings in Hreq.
  destruct (description r) as [d|] eqn:Hdesc; [|discriminate].
  destruct (truthy_string d); [|discriminate].
  destruct (JSON_parse d) as [v|] eqn:Hparse; [|discriminate].
  destruct v as [| | | | |fields]; try discriminate; cbn [prop] in Hreq.
  exists r, d, fields.
  split; [exact Hrec|]. split; [exact Hdesc|]. split; [exact Hparse|].
  destruct (lookup fields "access") as [[| |n|s| |]|]; try discriminate.
  now rewrite Hreq.
Qed.

End Guarantees.

(** X8.  An empty [SERVICE_API_KEY] is accepted at start-up, and then
    nobody is owner: under the minimum ["owner"] every request without
    [AuthInfo] ends with the access ["none"], because an empty credential
    is dropped before it is compared with the service credential. *)
Theorem empty_service_key_has_no_owner :
  forall (rt : Runtime) (env : Env) (id : string) (allowUnauthorized : bool)
         (w : World) (cache : Cache) (request : Request) (response : Response),
    env "SERVICE_API_KEY" = Some EmptyString ->
    env "RESOURCE_IAM_ID" = Some id ->
    authInfo request = None ->
    exists cfg,
      load_config env = inr cfg /\
      access (final_authInfo
                (authorize cfg min_owner allowUnauthorized w cache request response))
      = none.
Proof.
  intros rt env id allowUnauthorized w cache request response Hkey Hid Hfresh.
  exists {| serviceApiKey := EmptyString; resourceIamId := id |}.
  split; [unfold load_config; now rewrite Hkey, Hid|].
  set (cfg := {| serviceApiKey := EmptyString; resourceIamId := id |}).
  destruct (access _) eqn:Hacc; [reflexivity | exfalso | exfalso].
  all: assert (access
                 (final_authInfo
                    (authorize cfg min_owner allowUnauthorized w cache request response))
               <> none) as Hgranted by (rewrite Hacc; discriminate).
  all: destruct (fresh_grant_inv cfg w cache request response Hfresh min_owner
                   allowUnauthorized Hgranted)
         as (k & r & a & _ & Hk & _ & _ & _ & _ & _ & _ & Hg & _).
  all: cbn zeta in Hg; cbn [serviceApiKey cfg] in Hg; unfold granted in Hg.
  all: destruct (String.eqb_spec k EmptyString) as [->|_]; [discriminate Hk|].
  all: cbn in Hg; rewrite Hacc in Hg; discriminate.
Qed.

(** ** The checks after verification *)

Section Denials.

Context {rt : Runtime}.
Variable cfg : Config.
Variables (w : World) (cache : Cache) (request : Request) (response : Response).
Hypothesis fresh : authInfo request = None.
Variable k : string.
Hypothesis presented : read_accessKey request = Some k.
Hypothesis not_empty : truthy_string k = true.

Ltac run_verified Hv :=
  unfold authorize, check_block, bind, assign, ret, break_Check;
  rewrite fresh, (extract_run request k _ presented not_empty);
  cbn [st_authInfo st_cache];
  rewrite verify_run; cbn [st_authInfo st_cache];
  rewrite Hv; cbn [st_authInfo st_cache].

(** What a run records about the credential, however it ends. *)
Lemma fresh_record (minAccess : MinAccess) (allowUnauthorized : bool)
  (v : option Apikey) :
  verified w cache k = Some v ->
  let res := authorize cfg minAccess allowUnauthorized w cache request response in
  accessKey (final_authInfo res) = Some k /\
  apiKey (final_authInfo res) = Some v /\
  final_cache res = cache_after w cache k /\
  outcome res = decide allowUnauthorized request response (final_authInfo res).
Proof.
  intros Hv. cbn zeta. run_verified Hv.
  destruct v as [r|]; [|now cbn].
  destruct (locked r || disabled r || _); [now cbn|].
  destruct (parse_settings r); cbn [bind assign ret st_authInfo st_cache];
    destruct (as_Access _); try (now cbn);
    destruct (negb _); try (now cbn);
    destruct (granted _ _ _); now cbn.
Qed.

Variable r : Apikey.
Hypothesis record : verified w cache k = Some (Some r).
Hypothesis unlocked : locked r = false.
Hypothesis enabled : disabled r = false.
Hypothesis owned :
  negb (k =? serviceApiKey cfg)%string && negb (iam_id r =? resourceIamId cfg)%string
  = false.


(** X10.  When the compiled matcher rejects the request path, the run
    stops with the access ["none"], whatever access was requested, and the
    answer is 403 unless unauthorized requests are allowed through; the
    matcher stays installed in [authInfo.match]. *)
Theorem rejected_path_denied :
  forall (minAccess : MinAccess) (allowUnauthorized : bool) (a : Access),
    let f := compiled_match (k =? serviceApiKey cfg)%string
               (matches (settings_of r) "include") (matches (settings_of r) "exclude") in
    as_Access (requested (k =? serviceApiKey cfg)%string (settings_of r)) = Some a ->
    f (asked_path request) = false ->
    let res := authorize cfg minAccess allowUnauthorized w cache request response in
    (k =? serviceApiKey cfg)%string = false /\
    access (final_authInfo res) = none /\
    match_ (final_authInfo res) = Some f /\
    (allowUnauthorized = false -> outcome res = Sent (forbidden request response)).
Proof.
  intros minAccess allowUnauthorized a f Ha Hf. cbn zeta.
  split.
  { destruct (k =? serviceApiKey cfg)%string; [|reflexivity].
    unfold f, compiled_match in Hf. cbn in Hf. discriminate Hf. }
  run_verified record. rewrite unlocked, enabled, owned. cbn [orb].
  unfold asked_path in Hf.
  destruct (parse_settings r) as [v|] eqn:Hp;
    cbn [bind assign ret st_authInfo st_cache]; rewrite Ha;
    cbn [bind assign ret st_authInfo st_cache]; fold f; rewrite Hf; cbn;
    (split; [reflexivity|]); (split; [reflexivity|]);
    intros ->; now rewrite decide_forbidden with (k := k).
Qed.

End Denials.

(** ** The cache in front of the provider *)

Lemma verified_hit {rt : Runtime} (w : World) (cache : Cache) (k : string)
  (v : option Apikey) :
  cached_at (now w) k cache = Some v ->
  verified w cache k = Some v /\
  cache_after w cache k = snd (memoryCache_get (now w) k cache).
Proof.
  unfold cached_at, verified, cache_after, verify, bind, cache_get, ret.
  cbn [st_cache st_authInfo].
  destruct (memoryCache_get (now w) k cache) as [[x|] c]; [|discriminate].
  cbn [fst snd]. intros [= ->]. now split.
Qed.

Section Caching.

Context {rt : Runtime}.
Variable cfg : Config.
Variables (w : World) (cache : Cache) (request : Request) (response : Response).
Hypothesis fresh : authInfo request = None.
Variable k : string.
Hypothesis presented : read_accessKey request = Some k.
Hypothesis not_empty : truthy_string k = true.

(** X11.  When the cache holds a live entry for the credential, the
    provider is not asked: the run is the same whatever the provider would
    answer, and the cached value, Invalid included, is the one recorded in
    [authInfo.apiKey]. *)
Theorem cache_hit_skips_provider :
  forall (minAccess : MinAccess) (allowUnauthorized : bool) (v : option Apikey)
         (fetch : string -> FetchResult),
    cached_at (now w) k cache = Some v ->
    authorize cfg minAccess allowUnauthorized (with_provider fetch w) cache request response
    = authorize cfg minAccess allowUnauthorized w cache request response /\
    apiKey (final_authInfo
              (authorize cfg minAccess allowUnauthorized w cache request response))
    = Some v.
Proof.
  intros minAccess allowUnauthorized v fetch Hhit.
  destruct (verified_hit w cache k v Hhit) as [Hv Hc].
  destruct (verified_hit (with_provider fetch w) cache k v Hhit) as [Hv' Hc'].
  split.
  - unfold authorize, check_block, bind, assign, ret, break_Check.
    rewrite fresh, (extract_run request k _ presented not_empty).
    cbn [st_authInfo st_cache]. rewrite !verify_run.
    cbn [st_authInfo st_cache]. rewrite Hv, Hv', Hc, Hc'. reflexivity.
  - now destruct (fresh_record cfg w cache request response fresh k presented
                    not_empty minAccess allowUnauthorized v Hv) as (_ & H & _ & _).
Qed.


End Caching.

(** ** The answers of the middleware *)

Section Answers.

Context {rt : Runtime}.
Variable cfg : Config.
Variables (w : World) (cache : Cache) (request : Request) (response : Response).
Hypothesis fresh : authInfo request = None.

(** X23.  On a request without [AuthInfo], the middleware answers by
    itself only when unauthorized requests are not allowed through and the
    access is ["none"]; the answer is then 401 exactly when no credential,
    or an empty one, was presented, and 403 exactly when a credential that
    is not empty was presented. *)
Theorem answers_are_401_or_403 :
  forall (minAccess : MinAccess) (allowUnauthorized : bool) (r : Response),
    let res := authorize cfg minAccess allowUnauthorized w cache request response in
    outcome res = Sent r ->
    allowUnauthorized = false /\
    access (final_authInfo res) = none /\
    ((r = unauthorized request response /\ statusCode r = 401 /\
      accessKey (final_authInfo res) = None /\
      (read_accessKey request = None \/ read_accessKey request = Some EmptyString)) \/
     (r = forbidden request response /\ statusCode r = 403 /\
      exists k, read_accessKey request = Some k /\ k <> EmptyString /\
                accessKey (final_authInfo res) = Some k)).
Proof.
  intros minAccess allowUnauthorized r. cbn zeta.
  destruct (read_accessKey request) as [k|] eqn:Hread.
  - destruct (truthy_string k) eqn:Hk.
    + destruct (verified w cache k) as [v|] eqn:Hv.
      * destruct (fresh_record cfg w cache request response fresh k Hread Hk
                    minAccess allowUnauthorized v Hv) as (Hkey & _ & _ & Hout).
        rewrite Hout. unfold decide. rewrite Hkey, Hk.
        destruct (access _); cbn [is_none andb]; try discriminate.
        destruct allowUnauthorized; cbn [negb]; [discriminate|].
        intros [= <-]. split; [reflexivity|]. split; [reflexivity|].
        right. split; [reflexivity|]. split; [reflexivity|].
        exists k. split; [reflexivity|]. split; [now apply truthy_string_iff|].
        reflexivity.
      * unfold authorize, check_block, bind, assign, ret, break_Check.
        rewrite fresh, (extract_run request k _ Hread Hk).
        cbn [st_authInfo st_cache]. rewrite verify_run.
        cbn [st_authInfo st_cache]. rewrite Hv. cbn. discriminate.
    + unfold authorize, check_block, bind.
      rewrite fresh, extract_break by (now rewrite Hread).
      cbn. unfold decide. cbn.
      destruct allowUnauthorized; cbn; [discriminate|].
      intros [= <-]. split; [reflexivity|]. split; [reflexivity|].
      left. split; [reflexivity|]. split; [reflexivity|]. split; [reflexivity|].
      right. f_equal. unfold truthy_string in Hk.
      now destruct (String.eqb_spec k EmptyString).
  - unfold authorize, check_block, bind.
    rewrite fresh, extract_break by (now rewrite Hread).
    cbn. unfold decide. cbn.
    destruct allowUnauthorized; cbn; [discriminate|].
    intros [= <-]. split; [reflexivity|]. split; [reflexivity|].
    left. split; [reflexivity|]. split; [reflexivity|]. split; [reflexivity|].
    now left.
Qed.


End Answers.

(** ** The query parameter and the header *)

Lemma decide_ignores_request (allowUnauthorized : bool) (request request' : Request)
  (response : Response) (i : AuthInfo) :
  decide allowUnauthorized request response i
  = decide allowUnauthorized request' response i.
Proof. reflexivity. Qed.

(** X1.  A string-typed [accessKey] query parameter wins over the
    [Authorization] header: the run is the same whatever the header is, the
    source recorded is the query parameter, and an empty parameter leaves
    the request without credential even when the header carries one. *)
Theorem query_parameter_wins :
  forall (rt : Runtime) (cfg : Config) (minAccess : MinAccess)
         (allowUnauthorized : bool) (w : World) (cache : Cache)
         (request : Request) (response : Response) (s : string) (h : option string),
    authInfo request = None ->
    query_accessKey request = QString s ->
    let res := authorize cfg minAccess allowUnauthorized w cache request response in
    let res' := authorize cfg minAccess allowUnauthorized w cache
                  (with_header h request) response in
    res' = res /\
    type (final_authInfo res) = Some type_accessKey /\
    (s = EmptyString ->
     accessKey (final_authInfo res) = None /\ access (final_authInfo res) = none).
Proof.
  intros rt cfg minAccess allowUnauthorized w cache request response s h Hfresh Hq.
  cbn zeta.
  assert (forall st, check_block cfg minAccess w (with_header h request) st
                     = check_block cfg minAccess w request st) as Hsame.
  { intros st. unfold check_block, extract, source, read_accessKey, with_header.
    cbn [query_accessKey header_Authorization path]. now rewrite Hq. }
  split; [|split].
  - unfold authorize. cbn [authInfo with_header]. rewrite Hfresh, Hsame.
    destruct (check_block cfg minAccess w request _); reflexivity.
  - assert (read_accessKey request = Some s) as Hread
        by (unfold read_accessKey; now rewrite Hq).
    assert (source request = type_accessKey) as Hsrc
        by (unfold source; now rewrite Hq).
    destruct (truthy_string s) eqn:Hs.
    + unfold authorize, check_block, bind, assign, ret, break_Check.
      rewrite Hfresh, (extract_run request s _ Hread Hs).
      cbn [st_authInfo st_cache]. rewrite verify_run, Hsrc.
      cbn [st_authInfo st_cache].
      destruct (verified w cache s) as [[r|]|]; try (now cbn).
      cbn [st_authInfo st_cache].
      destruct (locked r || disabled r || _); [now cbn|].
      destruct (parse_settings r); cbn [bind assign ret st_authInfo st_cache];
        destruct (as_Access _); try (now cbn);
        destruct (negb _); try (now cbn);
        destruct (granted _ _ _); now cbn.
    + unfold authorize, check_block, bind. rewrite Hfresh, extract_break, Hsrc
        by (now rewrite Hread).
      reflexivity.
  - intros ->. unfold authorize, check_block, bind.
    rewrite Hfresh, extract_break
      by (unfold read_accessKey; now rewrite Hq).
    now cbn.
Qed.

(** ** Which paths the compiled matcher rejects *)

(** X13.  A path is rejected exactly when the credential is not the
    owner, at least one include matcher was compiled and some exclude
    matcher matches the path.  So settings with only an include list, or
    only an exclude list, restrict nothing. *)
Theorem matcher_rejects_iff :
  forall (rt : Runtime) (owner : bool) (includeMatches excludeMatches : list Minimatch)
         (path : string),
    (compiled_match owner includeMatches excludeMatches path = false <->
     owner = false /\
     includeMatches <> [] /\
     exists m, In m excludeMatches /\ mm_match m path true = true) /\
    (includeMatches = [] -> compiled_match owner includeMatches excludeMatches path = true) /\
    (excludeMatches = [] -> compiled_match owner includeMatches excludeMatches path = true).
Proof.
  intros rt owner inc exc path.
  rewrite compiled_match_literal. unfold some_match.
  split; [|split].
  - rewrite !orb_false_iff, negb_false_iff, existsb_exists.
    split.
    + intros [[Ho Hi] He]. split; [exact Ho|]. split; [|exact He].
      now destruct inc.
    + intros (Ho & Hi & He). split; [split; [exact Ho|]|exact He].
      destruct inc; [now elim Hi | reflexivity].
  - intros ->. cbn. now rewrite orb_true_r.
  - intros ->. cbn. apply orb_true_r.
Qed.

(** X14.  The patterns compiled for a field of the settings are exactly
    its value when that is a string, and its string entries when it is an
    array; entries of any other type are dropped, and settings that are not
    an object give no pattern. *)
Theorem matches_are_the_strings :
  forall (settings : JSON) (field p : string),
    In (new_Minimatch p) (matches settings field) <->
    exists fields,
      settings = JObj fields /\
      (lookup fields field = Some (JStr p) \/
       exists items, lookup fields field = Some (JArr items) /\ In (JStr p) items).
Proof.
  intros settings field p.
  assert (forall items, In (new_Minimatch p) (compile items) <-> In (JStr p) items)
    as Hcompile.
  { induction items as [|item items IH]; [reflexivity|].
    destruct item as [| | |s| |]; cbn [compile In]; rewrite ?IH;
      try (split; [now right | intros [H|H]; [discriminate H | exact H]]).
    split; (intros [H|H]; [left; congruence | now right]). }
  unfold matches.
  destruct settings as [|b|n|s|items|fields];
    try (destruct (negb _); cbn;
         (split; [intros H; now elim H | intros (fields & H & _); discriminate H])).
  cbn [truthy negb prop].
  split.
  - intros Hin. exists fields. split; [reflexivity|].
    destruct (lookup fields field) as [[| | |s| items|]|]; try (now elim Hin).
    + left. destruct Hin as [H|H]; [congruence | now elim H].
    + right. exists items. split; [reflexivity|]. now apply Hcompile.
  - intros (fields' & [= <-] & [H|(items & H & Hin)]); rewrite H.
    + now left.
    + now apply Hcompile.
Qed.

(** ** [servererror] *)


(** * The controllers *)

Module ControllerFacts.

Import Controllers.

Lemma endsWith_iff (s p : string) :
  endsWith s p = true <-> exists pre, s = (pre ++ p)%string.
Proof.
  unfold endsWith. rewrite String.eqb_eq. split.
  - intros H.
    assert (forall (t : string) (n : nat),
               exists pre, t = (pre ++ substring t n)%string) as Hsplit.
    { induction t as [|c t IH]; intros [|n]; simpl.
      - now exists EmptyString.
      - now exists EmptyString.
      - now exists EmptyString.
      - destruct (IH n) as [pre Hpre]. exists (String c pre). simpl. now rewrite <- Hpre. }
    destruct (Hsplit s (String.length s - String.length p)%nat) as [pre Hpre].
    exists pre. now rewrite <- H.
  - intros [pre ->]. rewrite length_append.
    replace (String.length pre + String.length p - String.length p)%nat
      with (String.length pre) by lia.
    apply substring_app.
Qed.

Lemma deleted_app (a b : list Effect) : deleted (a ++ b) = (deleted a ++ deleted b)%list.
Proof.
  induction a as [|e a IH]; [reflexivity|].
  destruct e; cbn [app deleted]; rewrite ?IH, ?app_assoc; reflexivity.
Qed.

Lemma batches_app (a b : list Effect) : batches (a ++ b) = (batches a ++ batches b)%list.
Proof.
  induction a as [|e a IH]; [reflexivity|].
  destruct e; cbn [app batches]; rewrite ?IH; reflexivity.
Qed.

Lemma deleted_calls (calls : list (list string)) :
  deleted (map DeleteObjects calls) = concat calls.
Proof.
  induction calls as [|c calls IH]; [reflexivity|]. cbn. now rewrite IH.
Qed.

Lemma batches_calls (calls : list (list string)) :
  batches (map DeleteObjects calls) = calls.
Proof.
  induction calls as [|c calls IH]; [reflexivity|]. cbn. now rewrite IH.
Qed.

Section Batching.

Context {rt : Runtime}.
Variable listObjects : string -> option AuthInfo -> bool -> Listing.
Variable deleteObjects : list string -> bool.

(** The loop of [delete_] is the loop of [post] over the valid files. *)
Lemma delete_items_yields (p : string) (items : list Item) (acc : list string) :
  delete_items deleteObjects p items acc
  = delete_yields deleteObjects
      (map (fun key => {| y_path := key; y_size := None |}) (valid_files p items)) acc.
Proof.
  revert acc. induction items as [|item items IH]; intros acc; [reflexivity|].
  cbn [delete_items valid_files].
  destruct (file item && validpath (PString (substring (p ++ name item) 1))).
  - cbn [map delete_yields y_path].
    destruct (size_ <=? List.length (acc ++ [substring (p ++ name item) 1]))%nat.
    + destruct (deleteObjects _); [|reflexivity]. now rewrite IH.
    + apply IH.
  - apply IH.
Qed.

(** The invariant of the batching loop: full batches go out, fewer than
    [size_] paths stay behind, and nothing is lost or repeated. *)
Lemma delete_yields_spec (items : list Yield) :
  forall (acc : list string) (calls : list (list string)) (r : option (list string)),
    (List.length acc < size_)%nat ->
    delete_yields deleteObjects items acc = (calls, r) ->
    Forall (fun c => List.length c = size_) calls /\
    match r with
    | Some rest =>
        (concat calls ++ rest = acc ++ map y_path items)%list /\
        (List.length rest < size_)%nat /\
        Forall (fun c => deleteObjects c = true) calls
    | None =>
        exists tail, (concat calls ++ tail = acc ++ map y_path items)%list
    end.
Proof.
  induction items as [|item items IH]; intros acc calls r Hacc Hrun.
  - cbn in Hrun. injection Hrun as <- <-. cbn. rewrite app_nil_r. auto.
  - cbn [delete_yields] in Hrun.
    assert (List.length (acc ++ [y_path item]) = S (List.length acc)) as Hlen
        by (rewrite length_app; cbn; lia).
    destruct (Nat.leb_spec size_ (List.length (acc ++ [y_path item]))) as [Hfull|Hroom].
    + assert (List.length (acc ++ [y_path item]) = size_) as Hexact by lia.
      destruct (deleteObjects (acc ++ [y_path item])) eqn:Hok.
      * destruct (delete_yields deleteObjects items []) as [calls' r'] eqn:Hrest.
        injection Hrun as <- <-.
        destruct (IH [] calls' r' ltac:(unfold size_; cbn; lia) Hrest) as [Hsizes Hr].
        split; [now constructor|].
        destruct r' as [rest|].
        -- destruct Hr as (Hcat & Hshort & Hall). cbn [concat].
           split; [|split; [exact Hshort | now constructor]].
           rewrite <- !app_assoc, Hcat. reflexivity.
        -- destruct Hr as [tail Hcat]. exists tail. cbn [concat].
           rewrite <- !app_assoc, Hcat. reflexivity.
      * injection Hrun as <- <-. split; [now repeat constructor|].
        exists (map y_path items). cbn. now rewrite app_nil_r, <- app_assoc.
    + destruct (IH (acc ++ [y_path item])%list calls r ltac:(lia) Hrun) as [Hsizes Hr].
      split; [exact Hsizes|].
      destruct r as [rest|].
      * destruct Hr as (Hcat & Hshort & Hall). rewrite Hcat, <- app_assoc. auto.
      * destruct Hr as [tail Hcat]. exists tail. now rewrite Hcat, <- app_assoc.
Qed.

(** What [finish] adds to the batches of the loop. *)
Lemma finish_spec (calls : list (list string)) (r : option (list string))
  (listed : bool) (next : list Effect) (all : list string) :
  deleted next = [] ->
  batches next = [] ->
  Forall (fun c => List.length c = size_) calls ->
  match r with
  | Some rest => (concat calls ++ rest = all)%list /\ (List.length rest < size_)%nat
  | None => exists tail, (concat calls ++ tail = all)%list
  end ->
  let run := finish deleteObjects calls r listed next in
  Forall (fun b => 1 <= List.length b <= size_)%nat (batches (fst run)) /\
  (exists tail, all = (deleted (fst run) ++ tail)%list) /\
  (snd run = true ->
   deleted (fst run) = all /\ listed = true /\
   exists before, fst run = (before ++ next)%list).
Proof.
  intros Hnext Hnext' Hsizes Hr. cbn zeta.
  assert (Forall (fun b => 1 <= List.length b <= size_)%nat calls) as Hbounds.
  { eapply Forall_impl; [|exact Hsizes]. cbn. intros b ->. unfold size_. lia. }
  unfold finish. destruct r as [rest|].
  - destruct Hr as [Hcat Hshort]. destruct listed.
    + destruct rest as [|x rest]; cbn [no_length negb].
      * cbn [fst snd]. rewrite batches_app, deleted_app, batches_calls, deleted_calls,
          Hnext, Hnext', !app_nil_r. rewrite app_nil_r in Hcat.
        split; [exact Hbounds|]. split; [exists []; now rewrite app_nil_r|].
        intros _. split; [exact Hcat|]. split; [reflexivity|]. now eexists.
      * destruct (deleteObjects (x :: rest)); cbn [fst snd].
        -- rewrite !batches_app, !deleted_app, batches_calls, deleted_calls,
             Hnext, Hnext'. cbn [batches deleted]. rewrite !app_nil_r.
           split; [|split].
           ++ apply Forall_app. split; [exact Hbounds|].
              constructor; [cbn in *; lia | constructor].
           ++ exists []. now rewrite app_nil_r.
           ++ intros _. split; [exact Hcat|]. split; [reflexivity|].
              exists (map DeleteObjects calls ++ [DeleteObjects (x :: rest)])%list.
              now rewrite <- app_assoc.
        -- rewrite !batches_app, !deleted_app, batches_calls, deleted_calls.
           cbn [batches deleted]. rewrite !app_nil_r.
           split; [|split].
           ++ apply Forall_app. split; [exact Hbounds|].
              constructor; [cbn in *; lia | constructor].
           ++ exists []. now rewrite app_nil_r.
           ++ discriminate.
    + cbn [fst snd]. rewrite batches_calls, deleted_calls.
      split; [exact Hbounds|]. split; [now exists rest | discriminate].
  - destruct Hr as [tail Hcat]. cbn [fst snd]. rewrite batches_calls, deleted_calls.
    split; [exact Hbounds|]. split; [now exists tail | discriminate].
Qed.

End Batching.

Lemma valid_files_In {rt : Runtime} (p : string) (items : list Item) (key : string) :
  In key (valid_files p items) <->
  exists item, In item items /\ file item = true /\
               validpath (PString key) = true /\
               key = substring (p ++ name item) 1.
Proof.
  induction items as [|item items IH]; cbn [valid_files In].
  - split; [intros H; now elim H | intros (item & H & _); now elim H].
  - destruct (file item && validpath (PString (substring (p ++ name item) 1))) eqn:Hok.
    + apply andb_true_iff in Hok as [Hfile Hvalid]. cbn [In]. rewrite IH. split.
      * intros [<-|(item' & Hin & H)]; [exists item; auto | exists item'; auto].
      * intros (item' & [<-|Hin] & Hf & Hv & ->); [now left | right; exists item'; auto].
    + rewrite IH. split.
      * intros (item' & Hin & H). exists item'. auto.
      * intros (item' & [<-|Hin] & Hf & Hv & ->); [|exists item'; auto].
        rewrite Hf, Hv in Hok. discriminate Hok.
Qed.

Section DeleteHandler.

Context {rt : Runtime}.
Variable listObjects : string -> option AuthInfo -> bool -> Listing.
Variable deleteObjects : list string -> bool.
Variables (request : Request) (response : Response).

Lemma delete_directory_run :
  endsWith (path request) "/" = true ->
  let p := path request in
  let listing := listObjects (substring p 1) (authInfo request) true in
  let run := delete_ listObjects deleteObjects request response in
  Forall (fun b => 1 <= List.length b <= size_)%nat (batches (fst run)) /\
  (exists tail, valid_files p (yielded listing) = (deleted (fst run) ++ tail)%list) /\
  (snd run = true ->
   deleted (fst run) = valid_files p (yielded listing) /\
   completes listing = true /\
   exists before, fst run = (before ++ [Respond (send_value None response)])%list).
Proof.
  intros Hdir. cbn zeta. unfold delete_. rewrite Hdir.
  set (p := path request).
  set (listing := listObjects (substring p 1) (authInfo request) true).
  destruct (delete_items deleteObjects p (yielded listing) []) as [calls r] eqn:Hloop.
  rewrite delete_items_yields in Hloop.
  destruct (delete_yields_spec deleteObjects _ [] calls r
              ltac:(unfold size_; cbn; lia) Hloop) as [Hsizes Hr].
  rewrite map_map in Hr. cbn [y_path app] in Hr. rewrite map_id in Hr.
  apply finish_spec; try reflexivity; [exact Hsizes|].
  destruct r as [rest|]; [now destruct Hr as (H1 & H2 & _) | exact Hr].
Qed.

(** X16.  [DELETE] on a path ending with a slash deletes, in listing
    order and each once, the listed files whose path is valid, and nothing
    else: directories and paths [validpath] rejects are never passed to
    [deleteObjects].  When a call or the listing fails the deletions made
    are a first part of that list; when the handler returns they are the
    whole list and the response is sent last. *)
Theorem delete_directory_deletes_valid_files :
  endsWith (path request) "/" = true ->
  let p := path request in
  let listing := listObjects (substring p 1) (authInfo request) true in
  let run := delete_ listObjects deleteObjects request response in
  (exists tail, valid_files p (yielded listing) = (deleted (fst run) ++ tail)%list) /\
  (forall key, In key (deleted (fst run)) ->
               validpath (PString key) = true /\
               exists item, In item (yielded listing) /\ file item = true /\
                            key = substring (p ++ name item) 1) /\
  (snd run = true ->
   deleted (fst run) = valid_files p (yielded listing) /\
   completes listing = true /\
   exists before, fst run = (before ++ [Respond (send_value None response)])%list).
Proof.
  intros Hdir. cbn zeta.
  destruct (delete_directory_run Hdir) as (_ & [tail Hprefix] & Hdone).
  split; [now exists tail|]. split; [|exact Hdone].
  intros key Hin.
  assert (In key (valid_files (path request)
                    (yielded (listObjects (substring (path request) 1)
                                (authInfo request) true)))) as Hvalid
      by (rewrite Hprefix; apply in_or_app; now left).
  apply valid_files_In in Hvalid as (item & Hitem & Hfile & Hv & Hkey).
  split; [exact Hv|]. now exists item.
Qed.

(** X17.  Every call of [deleteObjects] that [DELETE] makes carries at
    least one path and at most [size_], that is 100. *)
Theorem delete_batches_are_bounded :
  let run := delete_ listObjects deleteObjects request response in
  Forall (fun b => 1 <= List.length b <= 100)%nat (batches (fst run)).
Proof.
  cbn zeta. destruct (endsWith (path request) "/") eqn:Hdir.
  - now destruct (delete_directory_run Hdir) as (H & _).
  - unfold delete_. rewrite Hdir.
    destruct (deleteObjects [substring (path request) 1]); cbn;
      repeat constructor.
Qed.

End DeleteHandler.

Section PostHandler.

Context {rt : Runtime}.
Variable listObjects : string -> option AuthInfo -> bool -> Listing.
Variable deleteObjects : list string -> bool.
Variable setObjectStream : string -> Body -> bool.
Variable role : AuthInfo -> option string.
Variables (r : Post) (response : Response).

Lemma existsb_writes_calls (calls : list (list string)) :
  calls <> [] -> existsb writes (map DeleteObjects calls) = true.
Proof.
  destruct calls; [intros H; now elim H | reflexivity].
Qed.

Lemma read_writes_nothing (request : Request) :
  existsb writes (read request) = false.
Proof.
  unfold read, streamObject. destruct (endsWith (path request) "/"); [reflexivity|].
  now destruct (_ || _).
Qed.

Lemma unlink_writes_nothing : existsb writes (unlink_files r) = false.
Proof.
  unfold unlink_files. destruct (files r) as [fs|]; [|reflexivity].
  induction fs as [|f fs IH]; [reflexivity | exact IH].
Qed.

Lemma pack_writes_nothing (p : string) (items : list Yield) :
  existsb writes (map (pack_entry p) items) = false.
Proof.
  induction items as [|item items IH]; [reflexivity | exact IH].
Qed.

(** X18.  [POST] changes the object store only for the actions
    ["delete"] and ["upload"], on a path ending with a slash, for a caller
    whose role is ["writer"] or ["owner"]: under any other condition, the
    download included, no [deleteObjects] and no [setObjectStream] call is
    made. *)
Theorem post_writes_need_a_writer :
  let run := post listObjects deleteObjects setObjectStream role r response in
  forall e : Effect,
    In e (fst run) ->
    writes e = true ->
    endsWith (path (post_request r)) "/" = true /\
    not_a_writer role (authInfo (post_request r)) = false /\
    (body_action r = text "delete" \/ body_action r = text "upload").
Proof.
  cbn zeta.
  intros e Hin Hw.
  assert (existsb writes
            (fst (post listObjects deleteObjects setObjectStream role r response))
          = true) as Hsome
      by (apply existsb_exists; now exists e).
  clear e Hin Hw. revert Hsome.
  unfold post, post_try.
  destruct (endsWith (path (post_request r)) "/"); cbn [negb].
  2:{ cbn [fst]. rewrite existsb_app, unlink_writes_nothing. discriminate. }
  destruct (body_action r) as [|action|l].
  1,3: cbn [fst]; rewrite existsb_app, unlink_writes_nothing; discriminate.
  destruct (String.eqb_spec action "delete") as [->|_].
  { destruct (not_a_writer role (authInfo (post_request r))).
    - cbn [fst]. rewrite existsb_app, unlink_writes_nothing. discriminate.
    - intros _. auto. }
  destruct (String.eqb_spec action "upload") as [->|_].
  { destruct (not_a_writer role (authInfo (post_request r))).
    - cbn [fst]. rewrite existsb_app, unlink_writes_nothing. discriminate.
    - intros _. auto. }
  destruct (action =? "download")%string.
  - destruct (list_generator listObjects r) as [items listed]. cbn [fst].
    rewrite !existsb_app, unlink_writes_nothing, pack_writes_nothing.
    now destruct listed.
  - cbn [fst]. rewrite existsb_app, unlink_writes_nothing. discriminate.
Qed.

Hypothesis directory : endsWith (path (post_request r)) "/" = true.
Hypothesis writer : not_a_writer role (authInfo (post_request r)) = false.

(** X19.  The action ["delete"] of [POST] passes to [deleteObjects], in
    order and in batches of at least one and at most 100 paths, the paths
    the generator [list] yields; when a call or a listing fails the
    deletions made are a first part of them, and when the handler returns
    they are all of them, and the directory is then listed before the
    uploaded files are unlinked. *)
Theorem post_delete_batches :
  body_action r = text "delete" ->
  let items := fst (list_generator listObjects r) in
  let run := post listObjects deleteObjects setObjectStream role r response in
  Forall (fun b => 1 <= List.length b <= 100)%nat (batches (fst run)) /\
  (exists tail, map y_path items = (deleted (fst run) ++ tail)%list) /\
  (snd run = true ->
   deleted (fst run) = map y_path items /\
   exists before, fst run = (before ++ [ListDirectory] ++ unlink_files r)%list).
Proof.
  intros Haction. cbn zeta. unfold post, post_try.
  rewrite directory, Haction, writer. cbn [negb String.eqb Ascii.eqb Bool.eqb].
  change ("delete" =? "delete")%string with true. cbv iota.
  destruct (list_generator listObjects r) as [items listed]. cbn [fst].
  destruct (delete_yields deleteObjects items []) as [calls rest] eqn:Hloop.
  destruct (delete_yields_spec deleteObjects _ [] calls rest
              ltac:(unfold size_; cbn; lia) Hloop) as [Hsizes Hr].
  cbn [app] in Hr.
  assert (read (post_request r) = [ListDirectory]) as Hread
      by (unfold read; now rewrite directory).
  pose proof (finish_spec deleteObjects calls rest listed (read (post_request r))
                (map y_path items)) as Hfinish.
  rewrite Hread in Hfinish |- *.
  specialize (Hfinish eq_refl eq_refl Hsizes).
  destruct (Hfinish ltac:(destruct rest; [now destruct Hr as (H1 & H2 & _) | exact Hr]))
    as (Hbounds & Hprefix & Hdone).
  destruct (finish deleteObjects calls rest listed [ListDirectory]) as [effects ok].
  cbn [fst snd] in *.
  assert (deleted (unlink_files r) = [] /\ batches (unlink_files r) = []) as [Hd Hb].
  { unfold unlink_files. destruct (files r) as [fs|]; [|now split].
    induction fs as [|f fs IH]; [now split | exact IH]. }
  rewrite batches_app, deleted_app, Hd, Hb, !app_nil_r.
  split; [exact Hbounds|]. split; [exact Hprefix|].
  intros Hok. destruct (Hdone Hok) as (Hall & _ & before & ->).
  split; [exact Hall|]. exists before. now rewrite <- app_assoc.
Qed.

(** The files of an upload that are stored, with their keys. *)
Lemma upload_files_spec (p : string) (fs : list UploadedFile) :
  let run := upload_files setObjectStream p fs in
  (exists tail, valid_uploads p fs = (stored (fst run) ++ tail)%list) /\
  deleted (fst run) = [] /\
  (snd run = true -> stored (fst run) = valid_uploads p fs).
Proof.
  cbn zeta. induction fs as [|f fs IH]; cbn [upload_files valid_uploads].
  - split; [now exists []|]. now split.
  - destruct (validpath (PString (substring (p ++ originalname f) 1))); [|exact IH].
    destruct (setObjectStream _ _).
    + destruct (upload_files setObjectStream p fs) as [effects ok].
      cbn [fst snd stored deleted] in *.
      destruct IH as ([tail Htail] & Hd & Hall).
      split; [exists tail; now rewrite Htail|]. split; [exact Hd|].
      intros Hok. now rewrite (Hall Hok).
    + cbn [fst snd stored deleted]. split; [now eexists|]. split; [reflexivity|].
      discriminate.
Qed.

(** X20.  The action ["upload"] of [POST] stores, in order, the uploaded
    files whose target path, the request path followed by the original
    name, is valid, each from its temporary file, and stores nothing else;
    files with an invalid target are skipped silently.  It deletes
    nothing. *)
Theorem post_upload_stores_valid_files :
  forall fs : list UploadedFile,
    body_action r = text "upload" ->
    files r = Some fs ->
    let p := path (post_request r) in
    let run := post listObjects deleteObjects setObjectStream role r response in
    (exists tail, valid_uploads p fs = (stored (fst run) ++ tail)%list) /\
    (forall key body, In (key, body) (stored (fst run)) ->
                      validpath (PString key) = true) /\
    deleted (fst run) = [] /\
    (snd run = true -> stored (fst run) = valid_uploads p fs).
Proof.
  intros fs Haction Hfiles. cbn zeta. unfold post, post_try.
  rewrite directory, Haction, writer, Hfiles. cbn [negb].
  change ("upload" =? "delete")%string with false.
  change ("upload" =? "upload")%string with true. cbv iota.
  destruct (upload_files_spec (path (post_request r)) fs) as ([tail Htail] & Hd & Hall).
  assert (stored (read (post_request r)) = [] /\ deleted (read (post_request r)) = [])
    as [Hrs Hrd] by (unfold read; now rewrite directory).
  assert (stored (unlink_files r) = [] /\ deleted (unlink_files r) = []) as [Hus Hud].
  { unfold unlink_files. rewrite Hfiles. clear.
    induction fs as [|f fs IH]; [now split | exact IH]. }
  assert (forall a b, stored (a ++ b) = (stored a ++ stored b)%list) as Hstored_app.
  { induction a as [|e a IH]; intros b; [reflexivity|].
    destruct e; cbn [app stored]; now rewrite ?IH. }
  destruct (upload_files setObjectStream (path (post_request r)) fs) as [effects ok].
  cbn [fst snd] in *.
  assert (stored (fst (if ok then ((effects ++ read (post_request r))%list, true)
                       else (effects, false))) = stored effects /\
          deleted (fst (if ok then ((effects ++ read (post_request r))%list, true)
                        else (effects, false))) = [] /\
          snd (if ok then ((effects ++ read (post_request r))%list, true)
               else (effects, false)) = ok) as (H1 & H2 & H3).
  { destruct ok; cbn [fst snd]; rewrite ?Hstored_app, ?deleted_app, ?Hrs, ?Hrd, ?Hd,
      ?app_nil_r; auto. }
  destruct (if ok then _ else _) as [effects' ok'] eqn:Hrun. cbn [fst snd] in *.
  rewrite Hstored_app, deleted_app, Hus, Hud, H1, H2, !app_nil_r. subst ok'.
  split; [now exists tail|]. split; [|split; [reflexivity | exact Hall]].
  intros key body Hin.
  assert (In (key, body) (valid_uploads (path (post_request r)) fs)) as Hvalid
      by (rewrite Htail; apply in_or_app; now left).
  clear - Hvalid. induction fs as [|f fs IH]; [now elim Hvalid|].
  cbn [valid_uploads] in Hvalid.
  destruct (validpath (PString (substring (path (post_request r) ++ originalname f) 1)))
    eqn:Hv; [|now apply IH].
  destruct Hvalid as [[= <- _]|Hvalid]; [exact Hv | now apply IH].
Qed.

End PostHandler.

Section Listing.

Context {rt : Runtime}.
Variable listObjects : string -> option AuthInfo -> bool -> Listing.

Lemma list_items_In (fullpath : string) (items : list Item) (y : Yield) :
  In y (list_items fullpath items) ->
  exists item,
    In item items /\ file item = true /\
    validpath (PString (fullpath ++ name item)) = true /\
    y_path y = substring (fullpath ++ name item) 1 /\
    y_size y = size item.
Proof.
  induction items as [|item items IH]; cbn [list_items]; [intros H; now elim H|].
  destruct (file item && validpath (PString (fullpath ++ name item))) eqn:Hok.
  - apply andb_true_iff in Hok as [Hfile Hvalid].
    intros [<-|Hin].
    + exists item. cbn. auto.
    + destruct (IH Hin) as (item' & H & H'). exists item'. cbn. auto.
  - intros Hin. destruct (IH Hin) as (item' & H & H'). exists item'. cbn. auto.
Qed.

(** X21.  Whatever the generator [list] of [POST] yields comes from a
    file listed under one of the selected names (under the request path
    itself when none is selected) whose full path, the request path
    without its first character followed by the selected name and the item
    name, is valid; the path yielded is that full path without its first
    character, and directories and invalid paths are never yielded. *)
Theorem list_yields_valid_files :
  forall (r : Post) (y : Yield),
    In y (fst (list_generator listObjects r)) ->
    let p := path (post_request r) in
    exists n item,
      (In n (selected r) \/ (selected r = [] /\ n = EmptyString)) /\
      In item (yielded (listObjects (substring (p ++ n) 1)
                          (authInfo (post_request r)) true)) /\
      file item = true /\
      validpath (PString (substring (p ++ n) 1 ++ name item)) = true /\
      y_path y = substring (substring (p ++ n) 1 ++ name item) 1 /\
      y_size y = size item.
Proof.
  intros r y Hin. cbn zeta. unfold list_generator in Hin.
  assert (forall names,
             In y (fst (list_names listObjects (path (post_request r))
                          (authInfo (post_request r)) names)) ->
             exists n item,
               In n names /\
               In item (yielded (listObjects (substring (path (post_request r) ++ n) 1)
                                   (authInfo (post_request r)) true)) /\
               file item = true /\
               validpath (PString (substring (path (post_request r) ++ n) 1
                                   ++ name item)) = true /\
               y_path y = substring (substring (path (post_request r) ++ n) 1
                                     ++ name item) 1 /\
               y_size y = size item) as Hnames.
  { induction names as [|n names IH]; cbn [list_names]; [intros H; now elim H|].
    destruct (completes _).
    - destruct (list_names listObjects _ _ names) as [more ok]. cbn [fst] in *.
      intros H. apply in_app_or in H as [H|H].
      + destruct (list_items_In _ _ _ H) as (item & H1 & H2).
        exists n, item. cbn. auto.
      + destruct (IH H) as (n' & item & H1 & H2). exists n', item. cbn. auto.
    - cbn [fst]. intros H.
      destruct (list_items_In _ _ _ H) as (item & H1 & H2).
      exists n, item. cbn. auto. }
  destruct (selected r) as [|s l] eqn:Hsel; cbn [no_length negb] in Hin.
  - destruct (Hnames _ Hin) as (n & item & [<-|Hn] & H); [|now elim Hn].
    exists EmptyString, item. split; [now right | exact H].
  - destruct (Hnames _ Hin) as (n & item & Hn & H).
    exists n, item. split; [now left | exact H].
Qed.

End Listing.

(** ** The name of the archive *)

Lemma lastIndexOf_upto_none (seg rest : string) (c : ascii) :
  indexOf seg c = None ->
  forall l, (l < String.length seg)%nat -> lastIndexOf_upto (seg ++ rest) c l = None.
Proof.
  induction seg as [|a seg IH]; cbn [indexOf]; [intros _ l Hl; cbn in Hl; lia|].
  destruct (Ascii.eqb a c) eqn:Hac; [discriminate|].
  destruct (indexOf seg c) eqn:Hseg; [discriminate|].
  intros _ [|l] Hl; cbn [append lastIndexOf_upto]; rewrite ?Hac; [reflexivity|].
  rewrite IH; [reflexivity | reflexivity | cbn in Hl; lia].
Qed.

Lemma lastIndexOf_upto_segment (prefix seg rest : string) (c : ascii) :
  indexOf seg c = None ->
  lastIndexOf_upto (prefix ++ String c (seg ++ rest)) c
    (String.length prefix + String.length seg)
  = Some (String.length prefix).
Proof.
  intros Hseg. induction prefix as [|a prefix IH].
  - cbn [append String.length Nat.add lastIndexOf_upto].
    destruct (String.length seg) as [|l] eqn:Hlen.
    + now rewrite Ascii.eqb_refl.
    + rewrite lastIndexOf_upto_none by (auto; lia). now rewrite Ascii.eqb_refl.
  - cbn [append String.length Nat.add lastIndexOf_upto]. now rewrite IH.
Qed.

Lemma substring_middle (a b c : string) :
  String.substring (String.length a) (String.length b) (a ++ b ++ c) = b.
Proof.
  induction a as [|x a IH]; cbn [append String.length String.substring]; [|exact IH].
  induction b as [|y b IHb]; cbn [append String.length].
  - now destruct c.
  - cbn [String.substring]. now rewrite IHb.
Qed.

(** X22.  For a request path [.../name/], the archive the download action
    announces is called [name.tar.gz]: the name is the last segment of the
    path, between the last two slashes. *)
Theorem archive_is_named_after_directory :
  forall prefix seg : string,
    indexOf seg "/"%char = None ->
    archive_name (prefix ++ "/" ++ seg ++ "/") = (seg ++ ".tar.gz")%string.
Proof.
  intros prefix seg Hseg. unfold archive_name.
  set (p := (prefix ++ "/" ++ seg ++ "/")%string).
  assert (String.length p = String.length prefix + String.length seg + 2)%nat as Hlen.
  { unfold p. rewrite !length_append. cbn. lia. }
  assert (lastIndexOf p "/" (Z.of_nat (String.length p) - 2)
          = Z.of_nat (String.length prefix)) as ->.
  { unfold lastIndexOf.
    replace (Z.to_nat (Z.max 0 (Z.of_nat (String.length p) - 2)))
      with (String.length prefix + String.length seg)%nat by lia.
    unfold p. change ("/" ++ seg ++ "/")%string with (String "/" (seg ++ "/")).
    now rewrite lastIndexOf_upto_segment by exact Hseg. }
  unfold substring2.
  match goal with
  | |- (String.substring ?from ?count p ++ _)%string = _ =>
      replace from with (String.length (prefix ++ "/"))
        by (rewrite length_append; cbn [String.length]; lia);
      replace count with (String.length seg) by lia
  end.
  unfold p. rewrite <- append_assoc.
  now rewrite substring_middle.
Qed.

End ControllerFacts.

(** * Concrete runs of the further properties *)

(** X1, on a request whose query parameter is empty while its header
    carries the user key: the request stays without credential. *)
Lemma query_parameter_wins_witness :
  let request := Scenario.both "/a/file" EmptyString "user-key" in
  let res := authorize (rt := node) Example.cfg min_read false (Example.world None) []
               request Example.response0 in
  authorize (rt := node) Example.cfg min_read false (Example.world None) []
    (with_header None request) Example.response0 = res /\
  type (final_authInfo res) = Some type_accessKey /\
  accessKey (final_authInfo res) = None /\
  access (final_authInfo res) = none.
Proof.
  destruct (query_parameter_wins node Example.cfg min_read false (Example.world None) []
              (Scenario.both "/a/file" EmptyString "user-key") Example.response0
              EmptyString None eq_refl eq_refl)
    as (Hsame & Htype & Hempty).
  destruct (Hempty eq_refl) as [Hkey Haccess].
  repeat split; assumption.
Defined.

(** X5, X6 and X7, on the user key whose settings ask for ["write"],
    under the minimum ["write"]. *)
Lemma grant_is_sound_witness :
  let request := Example.get "/a/file" "user-key" in
  let res := authorize (rt := node) Example.cfg min_write false Scenario.writer_world []
               request Example.response0 in
  exists k r f,
    read_accessKey (rt := node) request = Some k /\
    k <> EmptyString /\
    accessKey (final_authInfo res) = Some k /\
    verified Scenario.writer_world [] k = Some (Some r) /\
    apiKey (final_authInfo res) = Some (Some r) /\
    locked r = false /\
    disabled r = false /\
    (k = serviceApiKey Example.cfg \/ iam_id r = resourceIamId Example.cfg) /\
    match_ (final_authInfo res) = Some f /\
    f (asked_path request) = true /\
    outcome res = Next.
Proof.
  apply (grant_is_sound (rt := node) Example.cfg Scenario.writer_world []
           (Example.get "/a/file" "user-key") Example.response0 eq_refl min_write false).
  cbn. discriminate.
Defined.

Lemma minimum_access_respected_witness :
  let res := authorize (rt := node) Example.cfg min_write false Scenario.writer_world []
               (Example.get "/a/file" "user-key") Example.response0 in
  access (final_authInfo res) = write.
Proof.
  refine (proj2 (minimum_access_respected (rt := node) Example.cfg Scenario.writer_world []
                   (Example.get "/a/file" "user-key") Example.response0 eq_refl
                   min_write false _) _).
  - cbn. discriminate.
  - discriminate.
Defined.

Lemma write_needs_explicit_setting_witness :
  let res := authorize (rt := node) Example.cfg min_write false Scenario.writer_world []
               (Example.get "/a/file" "user-key") Example.response0 in
  accessKey (final_authInfo res) = Some (serviceApiKey Example.cfg) \/
  exists r d fields,
    apiKey (final_authInfo res) = Some (Some r) /\
    description r = Some d /\
    JSON_parse (Runtime := node) d = Some (JObj fields) /\
    lookup fields "access" = Some (JStr "write").
Proof.
  apply (write_needs_explicit_setting (rt := node) Example.cfg Scenario.writer_world []
           (Example.get "/a/file" "user-key") Example.response0 eq_refl min_write false).
  reflexivity.
Defined.

(** X8, on an environment whose service key is the empty string, and a
    request that presents the key the provider takes for the service's. *)
Lemma empty_service_key_has_no_owner_witness :
  exists cfg,
    load_config Scenario.empty_key_env = inr cfg /\
    access (final_authInfo
              (authorize (rt := node) cfg min_owner false (Example.world None) []
                 (Example.get "/a/file" "service-key") Example.response0))
    = none.
Proof.
  apply (empty_service_key_has_no_owner node Scenario.empty_key_env "iam-1" false
           (Example.world None) [] (Example.get "/a/file" "service-key")
           Example.response0); reflexivity.
Defined.


(** X10, on the scoped user key and a path under [a/secret/]. *)
Lemma rejected_path_denied_witness :
  let request := Example.get "/a/secret/file" "user-key" in
  let res := authorize (rt := node) Example.cfg min_read false
               (Example.world (Some Example.scoped_text)) [] request Example.response0 in
  access (final_authInfo res) = none /\
  (exists f, match_ (final_authInfo res) = Some f /\ f "a/file" = true) /\
  outcome res = Sent (forbidden request Example.response0).
Proof.
  destruct (rejected_path_denied (rt := node) Example.cfg
              (Example.world (Some Example.scoped_text)) []
              (Example.get "/a/secret/file" "user-key") Example.response0 eq_refl
              "user-key" eq_refl eq_refl (Example.record (Some Example.scoped_text))
              eq_refl eq_refl eq_refl eq_refl min_read false read eq_refl eq_refl)
    as (_ & Ha & Hm & Hout).
  split; [exact Ha|]. split; [|exact (Hout eq_refl)].
  eexists. split; [exact Hm | reflexivity].
Defined.

(** X11 and X12, on the cache the first guard of [Example.first_pass]
    leaves behind, with the provider out of reach five minutes later. *)
Lemma cache_hit_skips_provider_witness :
  let cache := final_cache Example.first_pass in
  let later := {| now := 300000; fetch_details := fetch_details (Example.world None) |} in
  authorize (rt := node) Example.cfg min_read false
    (with_provider (fun _ => NetworkError) later) cache
    (Example.get "/a/file" "user-key") Example.response0
  = authorize (rt := node) Example.cfg min_read false later cache
      (Example.get "/a/file" "user-key") Example.response0.
Proof.
  apply (cache_hit_skips_provider (rt := node) Example.cfg
           {| now := 300000; fetch_details := fetch_details (Example.world None) |}
           (final_cache Example.first_pass)
           (Example.get "/a/file" "user-key") Example.response0 eq_refl
           "user-key" eq_refl eq_refl min_read false (Some (Example.record None))
           (fun _ => NetworkError) eq_refl).
Defined.


(** X16, on a directory holding a sub-directory, the read-me, two plain
    files and one whose name has glob magic. *)
Lemma delete_directory_deletes_valid_files_witness :
  let run := Controllers.delete_ (rt := node) Scenario.listObjects Scenario.deleteObjects
               (Scenario.directory write) Example.response0 in
  Controllers.deleted (fst run) = ["dir/README"; "dir/a.txt"; "dir/c.txt"] /\
  exists before,
    fst run = (before ++ [Controllers.Respond
                            (send_value None Example.response0)])%list.
Proof.
  destruct (ControllerFacts.delete_directory_deletes_valid_files (rt := node)
              Scenario.listObjects Scenario.deleteObjects
              (Scenario.directory write) Example.response0 eq_refl)
    as (_ & _ & Hdone).
  destruct (Hdone eq_refl) as (Hall & _ & Hlast).
  split; [exact Hall | exact Hlast].
Defined.

(** X18, on the upload of a writer. *)
Lemma post_writes_need_a_writer_witness :
  Controllers.not_a_writer Scenario.role
    (authInfo (Controllers.post_request (Scenario.action write "upload" Scenario.uploads)))
  = false.
Proof.
  refine (proj1 (proj2
            (ControllerFacts.post_writes_need_a_writer (rt := node)
               Scenario.listObjects Scenario.deleteObjects Scenario.setObjectStream
               Scenario.role (Scenario.action write "upload" Scenario.uploads)
               Example.response0
               (Controllers.SetObjectStream "dir/new.txt"
                  (Controllers.from_file "uploads/1")) _ eq_refl))).
  left. reflexivity.
Defined.

(** X19, on the bulk deletion of a writer. *)
Lemma post_delete_batches_witness :
  let r := Scenario.action write "delete" Scenario.uploads in
  let run := Controllers.post (rt := node) Scenario.listObjects Scenario.deleteObjects
               Scenario.setObjectStream Scenario.role r Example.response0 in
  Controllers.deleted (fst run)
  = map Controllers.y_path (fst (Controllers.list_generator Scenario.listObjects r)).
Proof.
  destruct (ControllerFacts.post_delete_batches (rt := node)
              Scenario.listObjects Scenario.deleteObjects Scenario.setObjectStream
              Scenario.role (Scenario.action write "delete" Scenario.uploads)
              Example.response0 eq_refl eq_refl eq_refl)
    as (_ & _ & Hdone).
  exact (proj1 (Hdone eq_refl)).
Defined.

(** X20, on two uploads, the second with a question mark in its name. *)
Lemma post_upload_stores_valid_files_witness :
  let r := Scenario.action write "upload" Scenario.uploads in
  let run := Controllers.post (rt := node) Scenario.listObjects Scenario.deleteObjects
               Scenario.setObjectStream Scenario.role r Example.response0 in
  Controllers.stored (fst run)
  = [("dir/new.txt", Controllers.from_file "uploads/1")].
Proof.
  destruct (ControllerFacts.post_upload_stores_valid_files (rt := node)
              Scenario.listObjects Scenario.deleteObjects Scenario.setObjectStream
              Scenario.role (Scenario.action write "upload" Scenario.uploads)
              Example.response0 eq_refl eq_refl Scenario.uploads eq_refl eq_refl)
    as (_ & _ & _ & Hdone).
  exact (Hdone eq_refl).
Defined.

(** X21, on a file the generator yields for the directory. *)
Lemma list_yields_valid_files_witness :
  let r := Scenario.action write "delete" Scenario.uploads in
  exists n item,
    (In n (Controllers.selected r) \/ (Controllers.selected r = [] /\ n = EmptyString)) /\
    In item (Controllers.yielded
               (Scenario.listObjects (substring ("/dir/" ++ n) 1)
                  (authInfo (Controllers.post_request r)) true)) /\
    Controllers.file item = true /\
    validpath (rt := node)
      (PString (substring ("/dir/" ++ n) 1 ++ Controllers.name item)) = true /\
    "ir/a.txt" = substring (substring ("/dir/" ++ n) 1 ++ Controllers.name item) 1 /\
    Some 1 = Controllers.size item.
Proof.
  apply (ControllerFacts.list_yields_valid_files (rt := node) Scenario.listObjects
           (Scenario.action write "delete" Scenario.uploads)
           {| Controllers.y_path := "ir/a.txt"; Controllers.y_size := Some 1 |}).
  right. left. reflexivity.
Defined.

(** X22, on a nested directory. *)
Lemma archive_is_named_after_directory_witness :
  Controllers.archive_name "/releases/v1/" = "v1.tar.gz".
Proof.
  apply (ControllerFacts.archive_is_named_after_directory "/releases" "v1").
  reflexivity.
Defined.

(** X23, on a key the provider does not know: the answer is a 403. *)
Lemma answers_are_401_or_403_witness :
  let request := Example.get "/a/file" "other" in
  let res := authorize (rt := node) Example.cfg min_read false (Example.world None) []
               request Example.response0 in
  access (final_authInfo res) = none.
Proof.
  exact (proj1 (proj2
           (answers_are_401_or_403 (rt := node) Example.cfg (Example.world None) []
              (Example.get "/a/file" "other") Example.response0 eq_refl min_read false
              (forbidden (Example.get "/a/file" "other") Example.response0) eq_refl))).
Defined.

